(** * flynn-controller: the job handlers of [jobs.go]

    A shallow embedding of [jobList], [jobLog], the server-sent-events log
    writer, [parseJobID], [connectHostMiddleware], [killJob] and [runJob],
    and the properties of the job-execution layer proved about them.

    Go strings and byte slices are byte sequences: both are [string] here
    (a list of 8-bit characters).  A Go [map[string]string] is a
    [gmap string string]; reading a missing key gives the empty string. *)

From Stdlib Require Import String Ascii List Bool Arith Lia.
From stdpp Require Import base option list gmap strings.

Open Scope string_scope.
Open Scope list_scope.

(** ** The [strings] package *)

Module strings.

(** [cut sep s]: the text before and after the first [sep] of [s]
    ([Index] then the two slices [s[:m]] and [s[m+1:]] of [genSplit]). *)
Fixpoint cut (sep : ascii) (s : string) : option (string * string) :=
  match s with
  | EmptyString => None
  | String c rest =>
      if Ascii.eqb c sep then Some (EmptyString, rest)
      else match cut sep rest with
           | Some (a, b) => Some (String c a, b)
           | None => None
           end
  end.

(** [SplitN s sep n] for a one-byte separator: at most [n] pieces, the
    last one holding the unsplit remainder. *)
Fixpoint SplitN (s : string) (sep : ascii) (n : nat) : list string :=
  match n with
  | 0 => []
  | 1 => [s]
  | S n' => match cut sep s with
            | None => [s]
            | Some (a, b) => a :: SplitN b sep n'
            end
  end.

(** [HasPrefix s p] *)
Fixpoint HasPrefix (s p : string) : bool :=
  match p, s with
  | EmptyString, _ => true
  | String _ _, EmptyString => false
  | String a p', String b s' => Ascii.eqb a b && HasPrefix s' p'
  end.

(** [Contains s sub]: [sub] occurs somewhere in [s]. *)
Fixpoint Contains (s sub : string) : bool :=
  HasPrefix s sub ||
  match s with
  | EmptyString => false
  | String _ s' => Contains s' sub
  end.

(** [c] occurs in [s] ([IndexByte s c >= 0]). *)
Fixpoint has (c : ascii) (s : string) : bool :=
  match s with
  | EmptyString => false
  | String d rest => Ascii.eqb d c || has c rest
  end.

End strings.

(** The line feed, and the terminal record of an event stream. *)
Definition LF : string := String (ascii_of_nat 10) EmptyString.

Definition eof_record : string :=
  "event: eof" +:+ LF +:+ "data: {}" +:+ LF +:+ LF.

(** The separator of a composite job ID. *)
Definition dash : ascii := "-"%char.

(** A Go map read: [m[k]], the zero value when the key is absent. *)
Definition get (m : gmap string string) (k : string) : string :=
  default "" (m !! k).

(** ** [parseJobID] *)

Definition parseJobID (params : gmap string string) : string * string :=
  match strings.SplitN (get params "jobs_id") dash 2 with
  | [a; b] =>
      if (String.eqb a "" || String.eqb b "")%bool then ("", "") else (a, b)
  | _ => ("", "")
  end.

(** [parseJobID] on the request whose only parameter is the composite ID. *)
Definition parse (id : string) : string * string :=
  parseJobID {[ "jobs_id" := id ]}.


(** ** Data model *)

(** Errors.  [ErrNotFound] is the controller's sentinel, [ValidationError]
    is [ct.ValidationError], [errorString] is what [errors.New] and
    [fmt.Errorf] build. *)
Inductive error :=
| ErrNotFound
| ValidationError (Field Message : string)
| errorString (text : string).

(** Package [ct] (controller types). *)
Module ct.
Record App := { AppID : string }.
Record Job := { ID : string; Type_ : string; ReleaseID : string; Cmd : list string }.
Record NewJob := {
  NewReleaseID : string; NewCmd : list string; NewEnv : gmap string string;
  TTY : bool; Columns : nat; Lines : nat }.
Record Release := { RelID : string; ArtifactID : string; RelEnv : gmap string string }.
Record Artifact := { URI : string }.
End ct.

(** Package [docker]: the container configuration of a job. *)
Module docker.
Record Config := {
  Cmd : list string; Env : list string; Image : string;
  AttachStdout : bool; AttachStderr : bool; AttachStdin : bool;
  StdinOnce : bool; OpenStdin : bool; Tty : bool }.
End docker.

(** Package [host] (flynn-host types).  A job's [Config] is a pointer
    ([*docker.Config]): [None] is the nil pointer. *)
Module host.
Record Job := {
  ID : string; Attributes : gmap string string; Config : option docker.Config }.
Record Host := { HostID : string; Jobs : list Job }.
Inductive AttachFlag :=
| AttachFlagStdout | AttachFlagStderr | AttachFlagStdin
| AttachFlagLogs | AttachFlagStream.
(** [Flags] is the list of the flags or-ed together, in source order. *)
Record AttachReq := {
  JobID : string; Flags : list AttachFlag; Height : nat; Width : nat }.
Record AddJobsReq := { HostJobs : gmap string (list Job) }.
End host.

(** The two ends of an interactive session: the caller's hijacked
    transport connection and the attach connection to the job. *)
Inductive endpoint := Transport | AttachConn.

(** The sub-streams of an attach stream. *)
Inductive fd := Stdout | Stderr.

(** What [r.JSON] is given. *)
Inductive payload :=
| Jobs (l : list ct.Job)
| OneJob (j : ct.Job).

(** ** The outside world

    Every call that leaves [jobs.go] is recorded as an [event]; what the
    call answers is given by the records below.  A handler calls each
    operation at most once per request (the response writer apart, whose
    answers are indexed by the number of the write), so fixed answers
    cover every run. *)

Inductive event :=
| EReleasesGet (id : string)
| EArtifactsGet (id : string)
| EListHosts
| EDialHost (hostID : string)
| EClientClose (hostID : string)
| EAttach (req : host.AttachReq) (wait : bool)
| EAttachWait
| EStopJob (id : string)
| EAddJobs (req : host.AddJobsReq)
| EClose (e : endpoint)
| ECloseWrite (e : endpoint)
| ECopied (to from : endpoint)
| EDone
| ELog (id : string)
| ELogParse (e : error)
| EError (e : error)
| EJSON (status : nat) (v : payload)
| EHeaderSet (k v : string)
| EWriteHeader (status : nat)
| EHijack
| EWrite (p : string) (res : option error)
| ELock
| EUnlock
| EPanic (e : error).

(** An open attach stream: the byte chunks its [Read] yields, and the
    same content as [demultiplex.Copy] hands it out, one chunk per write
    to the sub-stream's writer. *)
Record attachStream := { raw : list string; frames : list (fd * string) }.

(** [cluster.Host]: a dialed host.  [Attach] answers an error, or the
    stream and what the wait function will answer. *)
Record hostClient := {
  Attach : host.AttachReq → bool → error + (attachStream * option error);
  StopJob : string → option error }.

(** The [clusterClient] interface.  The host map is listed in the order
    in which this request's [range] loop visits it. *)
Record clusterClient := {
  ListHosts : error + list (string * host.Host);
  DialHost : string → error + hostClient;
  AddJobs : host.AddJobsReq → option error }.

(** The goroutines of an interactive session. *)
Inductive tid := G1 | G2 | Main.

(** Libraries and ambient state. *)
Record runtime := {
  ErrorText : error → string;          (* [Error()] of the errors declared outside this file *)
  Marshal : string → string → string;  (* [json.Marshal] of an [sseLogChunk] *)
  DockerImage : string → error + string;
  FormatEnv : gmap string string → gmap string string → list string;
  RandomJobID : string;
  WriteResult : nat → option error;    (* answer of the n-th write to the response writer *)
  HijackResult : option error;
  sched : list tid }.                  (* the scheduler's choices during a session *)

(** [err.Error()] *)
Definition Error (rt : runtime) (e : error) : string :=
  match e with
  | errorString s => s
  | _ => ErrorText rt e
  end.

(** The parts of a request the handlers read. *)
Record Request := { Accept : string; tail : string }.

(** ** Function bodies

    A body runs on a [frame]: the events so far, the stack of deferred
    calls of the running function, the number of writes made to the
    response writer, and the write error that the [json.Encoder] of the
    request's log writer has kept, if any.  A statement falls through with
    a value ([Next]), returns from the function ([Ret]), panics, or blocks
    for ever. *)

Record frame := {
  trace : list event; deferred : list event; writes : nat;
  encoder : option error }.

Inductive flow (R A : Type) :=
| Next (a : A)
| Ret (r : R)
| Panic
| Hang.
Arguments Next {R A} a.
Arguments Ret {R A} r.
Arguments Panic {R A}.
Arguments Hang {R A}.

Definition go (R A : Type) : Type := frame → flow R A * frame.

Global Instance go_ret {R} : MRet (go R) := λ A a f, (Next a, f).

Global Instance go_bind {R} : MBind (go R) := λ A B k m f,
  match m f with
  | (Next a, f') => k a f'
  | (Ret r, f') => (Ret r, f')
  | (Panic, f') => (Panic, f')
  | (Hang, f') => (Hang, f')
  end.

Definition emit {R} (e : event) : go R unit := λ f,
  (Next tt, {| trace := trace f ++ [e]; deferred := deferred f; writes := writes f;
               encoder := encoder f |}).

(** [defer e]: push a call on the deferred stack. *)
Definition defer {R} (e : event) : go R unit := λ f,
  (Next tt, {| trace := trace f; deferred := e :: deferred f; writes := writes f;
               encoder := encoder f |}).

(** [return r] *)
Definition ret {R A} (r : R) : go R A := λ f, (Ret r, f).

(** [panic(err)] *)
Definition panic {R A} (e : error) : go R A := λ f,
  (Panic, {| trace := trace f ++ [EPanic e]; deferred := deferred f; writes := writes f;
             encoder := encoder f |}).

(** Leaving a function: the deferred calls run, last deferred first. *)
Definition leave (caller f : frame) : frame :=
  {| trace := trace f ++ deferred f; deferred := deferred caller; writes := writes f;
     encoder := encoder f |}.

(** A call of a function with body [body], from a function with result
    type [R']. *)
Definition call {R R'} (body : go R R) : go R' R := λ f,
  match body {| trace := trace f; deferred := []; writes := writes f;
                encoder := encoder f |} with
  | (Next r, f') => (Next r, leave f f')
  | (Ret r, f') => (Next r, leave f f')
  | (Panic, f') => (Panic, leave f f')
  | (Hang, f') => (Hang, {| trace := trace f'; deferred := deferred f; writes := writes f';
                            encoder := encoder f' |})
  end.

(** The events of a handler run from an empty frame. *)
Definition run (h : go unit unit) : list event :=
  trace (snd (call (R' := unit) h
                {| trace := []; deferred := []; writes := 0; encoder := None |})).

(** [x, err := f(); if err != nil { onerr }] *)
Definition check {R A} (x : error + A) (onerr : error → go R A) : go R A :=
  match x with
  | inl err => onerr err
  | inr a => mret a
  end.

(** [if err := f(); err != nil { onerr }] *)
Definition check_ {R} (x : option error) (onerr : error → go R unit) : go R unit :=
  match x with
  | Some err => onerr err
  | None => mret tt
  end.

(** The response helper. *)
Definition r_Error {R} (e : error) : go R unit := emit (EError e).
Definition r_JSON {R} (status : nat) (v : payload) : go R unit := emit (EJSON status v).

(** [w.Write(p)] on the response writer. *)
Definition w_Write {R} (rt : runtime) (p : string) : go R (nat * option error) := λ f,
  let res := WriteResult rt (writes f) in
  (Next (match res with Some _ => 0 | None => String.length p end, res),
   {| trace := trace f ++ [EWrite p res]; deferred := deferred f; writes := S (writes f);
      encoder := encoder f |}).

(** ** [jobList] *)

(** The run-time error of reading a field through a nil pointer. *)
Definition nilDereference : error :=
  errorString "runtime error: invalid memory address or nil pointer dereference".

(** The body of the inner loop: one job of host [h], appended to [jobs]
    when its app annotation is the application's ID.  For a job without a
    type, line 47 reads the command through the [Config] pointer: the
    result is [None] when that pointer is nil. *)
Definition jobList_job (app : ct.App) (h : host.Host)
    (jobs : list ct.Job) (j : host.Job) : option (list ct.Job) :=
  if negb (String.eqb (get (host.Attributes j) "flynn-controller.app") (ct.AppID app))
  then Some jobs
  else
    let type := get (host.Attributes j) "flynn-controller.type" in
    cmd ← (if String.eqb type "" then docker.Cmd <$> host.Config j else Some []);
    Some (jobs ++ [ {| ct.ID := host.HostID h +:+ "-" +:+ host.ID j;
                       ct.Type_ := type;
                       ct.ReleaseID := get (host.Attributes j) "flynn-controller.release";
                       ct.Cmd := cmd |} ]).

(** The two nested [range] loops; [None] once a nil pointer was read. *)
Definition jobList_loop (app : ct.App) (hosts : list (string * host.Host))
    : option (list ct.Job) :=
  fold_left (λ acc kh,
               fold_left (λ acc j, jobs ← acc; jobList_job app (snd kh) jobs j)
                         (host.Jobs (snd kh)) acc)
            hosts (Some []).

Definition jobList (app : ct.App) (cc : clusterClient) : go unit unit :=
  emit EListHosts;;
  hosts ← check (ListHosts cc) (λ err, r_Error err;; ret tt);
  match jobList_loop app hosts with
  | Some jobs => r_JSON 200 (Jobs jobs)
  | None => panic nilDereference
  end.

(** ** The server-sent-events log writer *)

(** [NewSSELogWriter(w)]: the log writer of a request and its fresh
    [json.Encoder], which has kept no error yet. *)
Definition NewSSELogWriter {R} : go R unit := λ f,
  (Next tt, {| trace := trace f; deferred := deferred f; writes := writes f;
               encoder := None |}).

(** The encoder's kept error, read and set. *)
Definition enc_err {R} : go R (option error) := λ f, (Next (encoder f), f).

Definition set_enc_err {R} (err : option error) : go R unit := λ f,
  (Next tt, {| trace := trace f; deferred := deferred f; writes := writes f;
               encoder := err |}).

(** [json.Encoder.Encode] of an [sseLogChunk].  An encoder that has kept
    a write error answers it at once and writes nothing; otherwise the
    marshalled value and a newline go out in one write, and the encoder
    keeps the error of that write, if it fails, for every later call. *)
Definition Encode {R} (rt : runtime) (stream data : string) : go R (option error) :=
  kept ← enc_err;
  match kept with
  | Some err => mret (Some err)
  | None =>
      r ← w_Write rt (Marshal rt stream data +:+ LF);
      check_ (snd r) (λ err, set_enc_err (Some err));;
      mret (snd r)
  end.

(** [sseLogStreamWriter.Write] of the handle [Stream(s)]. *)
Definition sseLogStreamWriter_Write {R'} (rt : runtime) (s : string) (p : string)
    : go R' (nat * option error) :=
  call (
    emit ELock;;
    defer EUnlock;;
    r1 ← w_Write rt "data: ";
    check_ (snd r1) (λ err, ret (0, Some err));;
    r2 ← Encode rt s p;
    check_ r2 (λ err, ret (0, Some err));;
    r3 ← w_Write rt LF;
    ret (String.length p, snd r3)).

(** Modelled from the spec: [demultiplex.Copy], of the go-flynn library,
    is not in this file.  It hands each chunk of the attach stream to the
    writer of the chunk's sub-stream, one write per chunk, and stops at
    the first write that fails or at the end of the stream. *)
Fixpoint demultiplex_Copy {R} (stdout stderr : string → go R (nat * option error))
    (chunks : list (fd * string)) : go R (option error) :=
  match chunks with
  | [] => mret None
  | (s, p) :: rest =>
      r ← (match s with Stdout => stdout p | Stderr => stderr p end);
      match snd r with
      | Some err => mret (Some err)
      | None => demultiplex_Copy stdout stderr rest
      end
  end.

(** [io.Copy(w, stream)]: every chunk read is written as it is. *)
Fixpoint io_Copy {R} (w : string → go R (nat * option error))
    (chunks : list string) : go R (option error) :=
  match chunks with
  | [] => mret None
  | p :: rest =>
      r ← w p;
      match snd r with
      | Some err => mret (Some err)
      | None => io_Copy w rest
      end
  end.

(** ** [jobLog] *)

(** The attach request of lines 57 to 63. *)
Definition logAttachReq (req : Request) (params : gmap string string) : host.AttachReq :=
  let flags := [host.AttachFlagStdout; host.AttachFlagStderr; host.AttachFlagLogs] in
  let flags := if negb (String.eqb (tail req) "")
               then flags ++ [host.AttachFlagStream] else flags in
  {| host.JobID := get params "jobs_id"; host.Flags := flags;
     host.Height := 0; host.Width := 0 |}.

Definition jobLog (rt : runtime) (req : Request) (params : gmap string string)
    (cluster : hostClient) : go unit unit :=
  let attachReq := logAttachReq req params in
  emit (EAttach attachReq false);;
  sw ← check (Attach cluster attachReq false) (λ err, r_Error err;; ret tt);
  let stream := fst sw in
  defer (EClose AttachConn);;
  if strings.Contains (Accept req) "text/event-stream" then
    emit (EHeaderSet "Content-Type" "text/event-stream; charset=utf-8");;
    NewSSELogWriter;;
    demultiplex_Copy (sseLogStreamWriter_Write rt "stdout")
                     (sseLogStreamWriter_Write rt "stderr") (frames stream);;
    w_Write rt eof_record;;
    mret tt
  else
    io_Copy (w_Write rt) (raw stream);;
    mret tt.

(** ** [connectHostMiddleware] and [killJob] *)

(** [next] is the rest of the handler chain, run by [c.Next()] with the
    rewritten parameters and the dialed host. *)
Definition connectHostMiddleware (params : gmap string string) (cl : clusterClient)
    (next : gmap string string → hostClient → go unit unit) : go unit unit :=
  let '(hostID, jobID) := parseJobID params in
  (if String.eqb hostID "" then
     emit (ELog (get params "jobs_id"));;
     r_Error ErrNotFound;;
     ret tt
   else mret tt);;
  let params := <[ "jobs_id" := jobID ]> params in
  emit (EDialHost hostID);;
  client ← check (DialHost cl hostID) (λ err, r_Error err;; ret tt);
  call (next params client);;
  emit (EClientClose hostID).

Definition killJob (params : gmap string string) (client : hostClient) : go unit unit :=
  emit (EStopJob (get params "jobs_id"));;
  check_ (StopJob client (get params "jobs_id")) (λ err, r_Error err;; ret tt).

(** ** The duplex proxy of an interactive session

    The two [go cp(...)] goroutines and the handler, which receives twice
    from the channel [done] (capacity 2).  Each goroutine is the list of
    the actions it still has to do; the scheduler picks which goroutine
    moves next, and a goroutine that cannot move (a receive on the empty
    channel, a finished goroutine) stays where it is. *)

Inductive act :=
| ACopy (to from : endpoint)     (* [io.Copy(to, from)] has returned *)
| ACloseWrite (to : endpoint)    (* [to.CloseWrite()] *)
| ASend                          (* [done <- struct{}{}] *)
| ARecv.                         (* [<-done] *)

(** The closure [cp]. *)
Definition cp (to from : endpoint) : list act :=
  [ACopy to from; ACloseWrite to; ASend].

Record pool := { g1 : list act; g2 : list act; main : list act; done : nat }.

Definition done_cap : nat := 2.

Definition act_step (a : act) (d : nat) : option (list event * nat) :=
  match a with
  | ACopy to from => Some ([ECopied to from], d)
  | ACloseWrite to => Some ([ECloseWrite to], d)
  | ASend => if Nat.ltb d done_cap then Some ([EDone], S d) else None
  | ARecv => match d with 0 => None | S d' => Some ([], d') end
  end.

Definition thread (t : tid) (p : pool) : list act :=
  match t with G1 => g1 p | G2 => g2 p | Main => main p end.

Definition advance (t : tid) (rest : list act) (d : nat) (p : pool) : pool :=
  match t with
  | G1 => {| g1 := rest; g2 := g2 p; main := main p; done := d |}
  | G2 => {| g1 := g1 p; g2 := rest; main := main p; done := d |}
  | Main => {| g1 := g1 p; g2 := g2 p; main := rest; done := d |}
  end.

Definition pool_step (t : tid) (p : pool) : list event * pool :=
  match thread t p with
  | [] => ([], p)
  | a :: rest =>
      match act_step a (done p) with
      | None => ([], p)
      | Some (evs, d) => (evs, advance t rest d p)
      end
  end.

Fixpoint schedule (s : list tid) (p : pool) : list event * pool :=
  match s with
  | [] => ([], p)
  | t :: s' =>
      let '(e1, p1) := pool_step t p in
      let '(e2, p2) := schedule s' p1 in
      (e1 ++ e2, p2)
  end.

(** [go cp(conn, attachConn); go cp(attachConn, conn); <-done; <-done] *)
Definition session_start : pool :=
  {| g1 := cp Transport AttachConn; g2 := cp AttachConn Transport;
     main := [ARecv; ARecv]; done := 0 |}.

(** The session under the runtime's schedule: the handler goes on when it
    has received twice, and blocks for ever otherwise. *)
Definition session {R} (rt : runtime) : go R unit := λ f,
  let '(evs, p) := schedule (sched rt) session_start in
  (match main p with [] => Next tt | _ => Hang end,
   {| trace := trace f ++ evs; deferred := deferred f; writes := writes f;
      encoder := encoder f |}).

(** ** [runJob] *)

(** The job record of lines 183 to 204. *)
Definition newHostJob (rt : runtime) (app : ct.App) (newJob : ct.NewJob)
    (release : ct.Release) (image : string) (attach : bool) : host.Job :=
  let tty := if ct.TTY newJob then true else false in
  {| host.ID := RandomJobID rt;
     host.Attributes := {[ "flynn-controller.app" := ct.AppID app;
                           "flynn-controller.release" := ct.RelID release ]};
     host.Config := Some {|
       docker.Cmd := ct.NewCmd newJob;
       docker.Env := FormatEnv rt (ct.RelEnv release) (ct.NewEnv newJob);
       docker.Image := image;
       docker.AttachStdout := true;
       docker.AttachStderr := true;
       docker.AttachStdin := if attach then true else false;
       docker.StdinOnce := if attach then true else false;
       docker.OpenStdin := if attach then true else false;
       docker.Tty := tty |} |}.

(** The attach request of an interactive dispatch (lines 224 to 229). *)
Definition newAttachReq (jobID : string) (newJob : ct.NewJob) : host.AttachReq :=
  {| host.JobID := jobID;
     host.Flags := [host.AttachFlagStdout; host.AttachFlagStderr;
                    host.AttachFlagStdin; host.AttachFlagStream];
     host.Height := ct.Lines newJob;
     host.Width := ct.Columns newJob |}.

(** [&host.AddJobsReq{HostJobs: map[string][]*host.Job{hostID: {job}}}] *)
Definition newAddJobsReq (hostID : string) (job : host.Job) : host.AddJobsReq :=
  {| host.HostJobs := {[ hostID := [job] ]} |}.

(** [for hostID = range hosts { break }] *)
Definition pickHost (hosts : list (string * host.Host)) : string :=
  match hosts with
  | [] => ""
  | (hostID, _) :: _ => hostID
  end.

Definition runJob (rt : runtime) (app : ct.App) (newJob : ct.NewJob)
    (releases : string → error + ct.Release)
    (artifacts : string → error + ct.Artifact)
    (cl : clusterClient) (req : Request) : go unit unit :=
  emit (EReleasesGet (ct.NewReleaseID newJob));;
  release ← check (releases (ct.NewReleaseID newJob)) (λ err, r_Error err;; ret tt);
  emit (EArtifactsGet (ct.ArtifactID release));;
  artifact ← check (artifacts (ct.ArtifactID release)) (λ err, r_Error err;; ret tt);
  image ← check (DockerImage rt (ct.URI artifact))
            (λ err, emit (ELogParse err);;
                    r_Error (ValidationError "artifact.uri" "is invalid");;
                    ret tt);
  let attach := strings.Contains (Accept req) "application/vnd.flynn.attach" in
  let job := newHostJob rt app newJob release image attach in
  emit EListHosts;;
  hosts ← check (ListHosts cl) (λ err, r_Error err;; ret tt);
  let hostID := pickHost hosts in
  (if String.eqb hostID "" then
     r_Error (errorString "no hosts found");; ret tt
   else mret tt);;
  attachWait ← (if attach then
      let attachReq := newAttachReq (host.ID job) newJob in
      emit (EDialHost hostID);;
      client ← check (DialHost cl hostID)
                 (λ err, r_Error (errorString ("lorne connect failed: " +:+ Error rt err));;
                         ret tt);
      defer (EClientClose hostID);;
      emit (EAttach attachReq true);;
      cw ← check (Attach client attachReq true)
             (λ err, r_Error (errorString ("attach failed: " +:+ Error rt err));;
                     ret tt);
      defer (EClose AttachConn);;
      mret (snd cw)
    else mret None);
  emit (EAddJobs (newAddJobsReq hostID job));;
  check_ (AddJobs cl (newAddJobsReq hostID job))
    (λ err, r_Error (errorString ("schedule failed: " +:+ Error rt err));; ret tt);;
  if attach then
    emit EAttachWait;;
    check_ attachWait
      (λ err, r_Error (errorString ("attach wait failed: " +:+ Error rt err));; ret tt);;
    emit (EHeaderSet "Content-Type" "application/vnd.flynn.attach");;
    emit (EHeaderSet "Content-Length" "0");;
    emit (EWriteHeader 101);;
    emit EHijack;;
    check_ (HijackResult rt) (λ err, panic err);;
    defer (EClose Transport);;
    session rt;;
    ret tt
  else
    r_JSON 200 (OneJob {| ct.ID := hostID +:+ "-" +:+ host.ID job;
                          ct.Type_ := "";
                          ct.ReleaseID := ct.NewReleaseID newJob;
                          ct.Cmd := ct.NewCmd newJob |}).

(** ** Sample worlds *)

(** [json.Marshal] of an [sseLogChunk] whose two strings need no
    escaping. *)
Definition quoted (s : string) : string :=
  String (ascii_of_nat 34) s +:+ String (ascii_of_nat 34) EmptyString.

Definition sampleMarshal (stream data : string) : string :=
  "{" +:+ quoted "stream" +:+ ":" +:+ quoted stream +:+ "," +:+
  quoted "data" +:+ ":" +:+ quoted data +:+ "}".

Definition okRuntime : runtime := {|
  ErrorText := λ e, match e with
                    | ErrNotFound => "not found"
                    | ValidationError f m => f +:+ " " +:+ m
                    | errorString s => s
                    end;
  Marshal := sampleMarshal;
  DockerImage := λ uri, inr uri;
  FormatEnv := λ _ _, [];
  RandomJobID := "job7";
  WriteResult := λ _, None;
  HijackResult := None;
  sched := [G1; G1; G1; G2; G2; G2; Main; Main] |}.

Definition okStream : attachStream :=
  {| raw := ["hello"]; frames := [(Stdout, "hello")] |}.

Definition okHost : hostClient :=
  {| Attach := λ _ _, inr (okStream, None); StopJob := λ _, None |}.

Definition h1 : host.Host := {| host.HostID := "h1"; host.Jobs := [] |}.

Definition okCluster : clusterClient :=
  {| ListHosts := inr [("h1", h1)]; DialHost := λ _, inr okHost; AddJobs := λ _, None |}.

Definition okReleases (id : string) : error + ct.Release :=
  inr {| ct.RelID := id; ct.ArtifactID := "art"; ct.RelEnv := ∅ |}.

Definition okArtifacts (id : string) : error + ct.Artifact :=
  inr {| ct.URI := "docker://img" |}.

Definition appA : ct.App := {| ct.AppID := "A" |}.

Definition lsJob : ct.NewJob :=
  {| ct.NewReleaseID := "rel1"; ct.NewCmd := ["ls"]; ct.NewEnv := ∅;
     ct.TTY := false; ct.Columns := 80; ct.Lines := 24 |}.

Definition plainReq : Request := {| Accept := "application/json"; tail := "" |}.
Definition attachReq : Request := {| Accept := "application/vnd.flynn.attach"; tail := "" |}.
Definition sseReq : Request := {| Accept := "text/event-stream"; tail := "" |}.

(** ** Reading traces *)

Definition isAddJobs (e : event) : bool :=
  match e with EAddJobs _ => true | _ => false end.

Definition isAttach (e : event) : bool :=
  match e with EAttach _ _ => true | _ => false end.

Definition isDialHost (e : event) : bool :=
  match e with EDialHost _ => true | _ => false end.

(** A call that reaches the cluster: the host directory or one host. *)
Definition contactsHost (e : event) : bool :=
  match e with
  | EListHosts | EDialHost _ | EAttach _ _ | EAttachWait | EStopJob _ | EAddJobs _ => true
  | _ => false
  end.

(** A successful answer: a JSON body or the protocol switch. *)
Definition isReply (e : event) : bool :=
  match e with EJSON _ _ | EWriteHeader _ => true | _ => false end.

(** Number of events of a trace that satisfy [P]. *)
Definition occurrences (P : event → bool) (t : list event) : nat :=
  length (List.filter P t).

Definition isCloseOf (x : endpoint) (e : event) : bool :=
  match e, x with
  | EClose Transport, Transport | EClose AttachConn, AttachConn => true
  | _, _ => false
  end.

Definition isClientClose (e : event) : bool :=
  match e with EClientClose _ => true | _ => false end.

(** The request asks for an interactive session. *)
Definition interactive (req : Request) : Prop :=
  strings.Contains (Accept req) "application/vnd.flynn.attach" = true.

(** The attach session for request [areq] on host [hostID] can be
    established: the dial and the attach both succeed. *)
Definition established (cl : clusterClient) (hostID : string)
    (areq : host.AttachReq) : Prop :=
  ∃ client sw, DialHost cl hostID = inr client ∧ Attach client areq true = inr sw.

(** Release, artifact and image reference of a new job all resolve. *)
Definition resolves (rt : runtime) (releases : string → error + ct.Release)
    (artifacts : string → error + ct.Artifact) (newJob : ct.NewJob)
    (release : ct.Release) (image : string) : Prop :=
  releases (ct.NewReleaseID newJob) = inr release ∧
  ∃ artifact, artifacts (ct.ArtifactID release) = inr artifact ∧
              DockerImage rt (ct.URI artifact) = inr image.

(** A composite ID that [parseJobID] rejects: no separator, or nothing
    on one side of the first separator. *)
Definition malformed (id : string) : Prop :=
  match strings.cut dash id with
  | None => True
  | Some (a, b) => a = "" ∨ b = ""
  end.

(** A cluster without hosts. *)
Definition emptyCluster : clusterClient :=
  {| ListHosts := inr []; DialHost := DialHost okCluster; AddJobs := AddJobs okCluster |}.

(** A cluster whose scheduler rejects every submission. *)
Definition rejectingCluster : clusterClient :=
  {| ListHosts := ListHosts okCluster; DialHost := DialHost okCluster;
     AddJobs := λ _, Some (errorString "boom") |}.

(** The events of the actions of a goroutine. *)
Definition act_events (a : act) : list event :=
  match a with
  | ACopy to from => [ECopied to from]
  | ACloseWrite to => [ECloseWrite to]
  | ASend => [EDone]
  | ARecv => []
  end.

Definition acts_events (l : list act) : list event := flat_map act_events l.

Definition sends (l : list act) : nat :=
  length (List.filter (λ a, match a with ASend => true | _ => false end) l).

Definition recvs (l : list act) : nat :=
  length (List.filter (λ a, match a with ARecv => true | _ => false end) l).

(** [l] merges [l1] and [l2], each kept in its own order. *)
Inductive interleave {A : Type} : list A → list A → list A → Prop :=
| interleave_nil : interleave [] [] []
| interleave_l x l1 l2 l : interleave l1 l2 l → interleave (x :: l1) l2 (x :: l)
| interleave_r x l1 l2 l : interleave l1 l2 l → interleave l1 (x :: l2) (x :: l).

(** What the handler does when the session is over: the deferred closes
    of [runJob], in the order in which they run. *)
Definition teardown (hostID : string) : list event :=
  [EClose Transport; EClose AttachConn; EClientClose hostID].

(** A runtime like [okRuntime] under another schedule. *)
Definition withSched (s : list tid) : runtime :=
  {| ErrorText := ErrorText okRuntime; Marshal := Marshal okRuntime;
     DockerImage := DockerImage okRuntime; FormatEnv := FormatEnv okRuntime;
     RandomJobID := RandomJobID okRuntime; WriteResult := WriteResult okRuntime;
     HijackResult := HijackResult okRuntime; sched := s |}.

(** ** Job summaries, in the words of the specification *)

(** The job belongs to the application: its app annotation is the
    application's ID. *)
Definition belongs (app : ct.App) (j : host.Job) : bool :=
  String.eqb (get (host.Attributes j) "flynn-controller.app") (ct.AppID app).

(** The job has no type annotation. *)
Definition untyped (j : host.Job) : bool :=
  String.eqb (get (host.Attributes j) "flynn-controller.type") "".

(** The configured command of a job; a job without a configuration has
    none. *)
Definition configuredCmd (j : host.Job) : list string :=
  match host.Config j with Some config => docker.Cmd config | None => [] end.

(** The summary of job [j] of host [h]: the composite ID, the type
    annotation, the release annotation and, only when the type is empty,
    the configured command. *)
Definition summary (h : host.Host) (j : host.Job) : ct.Job :=
  {| ct.ID := host.HostID h +:+ "-" +:+ host.ID j;
     ct.Type_ := get (host.Attributes j) "flynn-controller.type";
     ct.ReleaseID := get (host.Attributes j) "flynn-controller.release";
     ct.Cmd := if untyped j then configuredCmd j else [] |}.

(** Job [j] can be listed for the application: it has a configuration
    unless it is a job of another application or has a type. *)
Definition hasConfig (app : ct.App) (j : host.Job) : bool :=
  match host.Config j with
  | Some _ => true
  | None => negb (belongs app j && untyped j)
  end.

(** Every job of the application that has no type has a configuration. *)
Definition configured (app : ct.App) (hosts : list (string * host.Host)) : bool :=
  forallb (λ kh, forallb (hasConfig app) (host.Jobs (snd kh))) hosts.

(** The summaries of the jobs of the application, host by host. *)
Definition listing (app : ct.App) (hosts : list (string * host.Host)) : list ct.Job :=
  flat_map (λ kh, map (summary (snd kh)) (List.filter (belongs app) (host.Jobs (snd kh))))
           hosts.

(** The cluster of the listing example: a web job of application A on
    [h1], a job of application B on [h2]. *)
Definition someConfig : docker.Config :=
  {| docker.Cmd := ["run"]; docker.Env := []; docker.Image := "img";
     docker.AttachStdout := true; docker.AttachStderr := true;
     docker.AttachStdin := false; docker.StdinOnce := false;
     docker.OpenStdin := false; docker.Tty := false |}.

Definition webJob : host.Job :=
  {| host.ID := "j1";
     host.Attributes := {[ "flynn-controller.app" := "A";
                           "flynn-controller.type" := "web";
                           "flynn-controller.release" := "rel1" ]};
     host.Config := Some someConfig |}.

Definition otherJob : host.Job :=
  {| host.ID := "j2";
     host.Attributes := {[ "flynn-controller.app" := "B";
                           "flynn-controller.release" := "rel2" ]};
     host.Config := Some someConfig |}.

Definition twoHosts : clusterClient :=
  {| ListHosts := inr [("h1", {| host.HostID := "h1"; host.Jobs := [webJob] |});
                       ("h2", {| host.HostID := "h2"; host.Jobs := [otherJob] |})];
     DialHost := DialHost okCluster; AddJobs := AddJobs okCluster |}.

(** ** Frames of the event stream *)

Definition isWrite (e : event) : bool :=
  match e with EWrite _ _ => true | _ => false end.

(** The bytes the response writer has accepted. *)
Fixpoint body (t : list event) : string :=
  match t with
  | [] => ""
  | EWrite p None :: t' => p +:+ body t'
  | _ :: t' => body t'
  end.

(** The frame of chunk [p] of the stream named [s]: the prefix, the JSON
    record with its newline, and the line terminator. *)
Definition sseFrame (rt : runtime) (s p : string) : string :=
  "data: " +:+ Marshal rt s p +:+ LF +:+ LF.

(** The events of one accepted frame. *)
Definition frame_events (rt : runtime) (s p : string) : list event :=
  [ELock; EWrite "data: " None; EWrite (Marshal rt s p +:+ LF) None;
   EWrite LF None; EUnlock].

Definition fd_name (s : fd) : string :=
  match s with Stdout => "stdout" | Stderr => "stderr" end.

(** A response writer that accepts the next [n] writes. *)
Definition accepts (rt : runtime) (from n : nat) : Prop :=
  ∀ i, i < n → WriteResult rt (from + i) = None.

(** A response writer whose write number [k] fails. *)
Definition failingAt (k : nat) : runtime :=
  {| ErrorText := ErrorText okRuntime; Marshal := Marshal okRuntime;
     DockerImage := DockerImage okRuntime; FormatEnv := FormatEnv okRuntime;
     RandomJobID := RandomJobID okRuntime;
     WriteResult := λ n, if Nat.eqb n k then Some (errorString "broken pipe") else None;
     HijackResult := HijackResult okRuntime; sched := sched okRuntime |}.

Definition frame0 : frame :=
  {| trace := []; deferred := []; writes := 0; encoder := None |}.



(** The release that [okReleases] finds for [lsJob], the job record the
    dispatcher builds from it for an interactive request, and the trace of
    that request on [okCluster]: up to the submission, and after it. *)
Definition rel1 : ct.Release :=
  {| ct.RelID := "rel1"; ct.ArtifactID := "art"; ct.RelEnv := ∅ |}.

Definition okJob : host.Job :=
  newHostJob okRuntime appA lsJob rel1 "docker://img" true.

Definition okDispatched : list event :=
  [EReleasesGet "rel1"; EArtifactsGet "art"; EListHosts; EDialHost "h1";
   EAttach (newAttachReq "job7" lsJob) true].

Definition okSession : list event :=
  [EAttachWait;
   EHeaderSet "Content-Type" "application/vnd.flynn.attach";
   EHeaderSet "Content-Length" "0";
   EWriteHeader 101;
   EHijack;
   ECopied Transport AttachConn; ECloseWrite Transport; EDone;
   ECopied AttachConn Transport; ECloseWrite AttachConn; EDone;
   EClose Transport; EClose AttachConn; EClientClose "h1"].

(** ** Running function bodies *)

Ltac eval_go :=
  cbv [run call leave mbind go_bind mret go_ret emit defer ret panic check check_
       r_Error r_JSON session NewSSELogWriter enc_err set_enc_err
       fst snd trace deferred writes encoder];
  cbn [app].

Ltac norm_app := cbn [app].

(** Every event of an explicit trace satisfies the predicate at hand. *)
Ltac each_event :=
  repeat first
    [ apply List.Forall_nil
    | apply List.Forall_cons; [repeat split; reflexivity|] ].

(** The paths through [runJob], in source order.  Each goal left has the
    trace of its path computed; the answers that select the path are in
    the context under the names below. *)
Ltac runJob_paths rt app newJob releases artifacts cl req :=
  unfold runJob; eval_go;
  destruct (releases (ct.NewReleaseID newJob)) as [?e|release'] eqn:Hrel; eval_go;
  [|destruct (artifacts (ct.ArtifactID release')) as [?e|artifact'] eqn:Hart; eval_go;
  [|destruct (DockerImage rt (ct.URI artifact')) as [?e|image'] eqn:Himg; eval_go;
  [|destruct (ListHosts cl) as [?e|hosts'] eqn:Hhosts; eval_go;
  [|destruct (String.eqb (pickHost hosts') "") eqn:Hpick; eval_go;
  [|destruct (strings.Contains (Accept req) "application/vnd.flynn.attach") eqn:Hacc;
    eval_go;
    [change (host.ID (newHostJob rt app newJob release' image' true))
       with (RandomJobID rt);
     destruct (DialHost cl (pickHost hosts')) as [?e|client'] eqn:Hdial; eval_go;
     [|destruct (Attach client' (newAttachReq (RandomJobID rt) newJob) true)
         as [?e|[stream' wait']] eqn:Hatt; eval_go;
     [|destruct (AddJobs cl (newAddJobsReq (pickHost hosts')
                    (newHostJob rt app newJob release' image' true)))
         as [?e|] eqn:Hadd; eval_go;
     [|destruct wait' as [?e|]; eval_go;
     [|destruct (HijackResult rt) as [?e|] eqn:Hhijack; eval_go;
     [|destruct (schedule (sched rt) session_start) as [evs' p'] eqn:Hsched; eval_go;
       destruct (main p') as [|?a ?rest] eqn:Hmain; eval_go]]]]]
    |destruct (AddJobs cl (newAddJobsReq (pickHost hosts')
                   (newHostJob rt app newJob release' image' false)))
        as [?e|] eqn:Hadd; eval_go]]]]]].

(** An ID is rejected or not: [malformed] is decidable. *)
Definition malformedb (id : string) : bool :=
  match strings.cut dash id with
  | None => true
  | Some (a, b) => String.eqb a "" || String.eqb b ""
  end.

(** The request names the job [j] of host [h] by a composite ID that
    [parseJobID] accepts. *)
Definition names (params : gmap string string) (h j : string) : Prop :=
  get params "jobs_id" = h +:+ "-" +:+ j ∧
  h ≠ "" ∧ j ≠ "" ∧ strings.has dash h = false.

(** The frame in which the middleware runs the rest of the chain. *)
Definition dialed (h : string) : frame :=
  {| trace := [EDialHost h]; deferred := []; writes := 0; encoder := None |}.

(** A host on which stopping a job fails. *)
Definition stubbornHost : hostClient :=
  {| Attach := Attach okHost; StopJob := λ _, Some (errorString "no such job") |}.

Definition stubbornCluster : clusterClient :=
  {| ListHosts := ListHosts okCluster; DialHost := λ _, inr stubbornHost;
     AddJobs := AddJobs okCluster |}.

(** A cluster whose hosts cannot be dialed. *)
Definition unreachableCluster : clusterClient :=
  {| ListHosts := ListHosts okCluster;
     DialHost := λ _, inl (errorString "connection refused");
     AddJobs := AddJobs okCluster |}.

(** A handler that panics. *)
Definition panicky (params : gmap string string) (client : hostClient) : go unit unit :=
  emit (EStopJob (get params "jobs_id"));; panic (errorString "nil map").

(** Events of the multiplexer and of the response writer. *)
Definition isSinkEvent (e : event) : bool :=
  match e with ELock | EUnlock | EWrite _ _ => true | _ => false end.

Definition isResponseEvent (e : event) : bool :=
  match e with
  | ELock | EUnlock | EWrite _ _ | EHeaderSet _ _ => true
  | _ => false
  end.

(** An accepted write of chunk [p]. *)
Definition written (p : string) : event := EWrite p None.

(** The bytes of a list of chunks. *)
Definition concat_bytes (chunks : list string) : string :=
  fold_right String.append "" chunks.

Definition rawReq : Request := {| Accept := "*/*"; tail := "1" |}.

(** A host whose attach fails. *)
Definition deafHost : hostClient :=
  {| Attach := λ _ _, inl (errorString "no such job"); StopJob := StopJob okHost |}.

(** A stream of two raw chunks. *)
Definition twoChunks : attachStream :=
  {| raw := ["ab"; "cd"]; frames := [(Stdout, "ab"); (Stderr, "cd")] |}.

Definition twoChunkHost : hostClient :=
  {| Attach := λ _ _, inr (twoChunks, None); StopJob := StopJob okHost |}.

(** Events that only an interactive dispatch can produce. *)
Definition interactiveOnly (e : event) : bool :=
  match e with
  | EDialHost _ | EClientClose _ | EAttach _ _ | EAttachWait
  | EClose _ | ECloseWrite _ | ECopied _ _ | EDone
  | EHeaderSet _ _ | EWriteHeader _ | EHijack | EPanic _ => true
  | _ => false
  end.

(** The summary [runJob] answers for a job sent to host [hostID]. *)
Definition runSummary (rt : runtime) (newJob : ct.NewJob) (hostID : string) : ct.Job :=
  {| ct.ID := hostID +:+ "-" +:+ RandomJobID rt;
     ct.Type_ := "";
     ct.ReleaseID := ct.NewReleaseID newJob;
     ct.Cmd := ct.NewCmd newJob |}.

(** A cluster whose only host has a ['-'] in its ID. *)
Definition dashedCluster : clusterClient :=
  {| ListHosts := inr [("rack-1", {| host.HostID := "rack-1"; host.Jobs := [] |})];
     DialHost := DialHost okCluster; AddJobs := AddJobs okCluster |}.

(** Events of the two copy loops. *)
Definition isSessionEvent (e : event) : bool :=
  match e with ECopied _ _ | ECloseWrite _ | EDone => true | _ => false end.

(** The schedule lets the handler receive both completion signals. *)
Definition finishes (rt : runtime) : Prop :=
  main (snd (schedule (sched rt) session_start)) = [].

(** The handler leaves, by a return or by a panic: it is not left
    waiting. *)
Definition exits (h : go unit unit) : Prop :=
  fst (call (R' := unit) h
         {| trace := []; deferred := []; writes := 0; encoder := None |}) ≠ Hang.

(** Hosts that answer a dial and then fail at a later step. *)
Definition waitFailsHost : hostClient :=
  {| Attach := λ _ _, inr (okStream, Some (errorString "timeout"));
     StopJob := StopJob okHost |}.

Definition cluster_of (h : error + hostClient) : clusterClient :=
  {| ListHosts := ListHosts okCluster; DialHost := λ _, h; AddJobs := AddJobs okCluster |}.

(** A runtime whose response writer cannot be hijacked. *)
Definition noHijack : runtime :=
  {| ErrorText := ErrorText okRuntime; Marshal := Marshal okRuntime;
     DockerImage := DockerImage okRuntime; FormatEnv := FormatEnv okRuntime;
     RandomJobID := RandomJobID okRuntime; WriteResult := WriteResult okRuntime;
     HijackResult := Some (errorString "not a hijacker"); sched := sched okRuntime |}.

(** The events of a dispatch up to the choice of the host. *)
Definition selected (newJob : ct.NewJob) (release : ct.Release) : list event :=
  [EReleasesGet (ct.NewReleaseID newJob); EArtifactsGet (ct.ArtifactID release);
   EListHosts].

(** What [fmt.Errorf("<phase>: %s", err.Error())] builds. *)
Definition annotated (rt : runtime) (phase : string) (err : error) : error :=
  errorString (phase +:+ ": " +:+ Error rt err).

(** A cluster whose host directory cannot be listed. *)
Definition blindCluster : clusterClient :=
  {| ListHosts := inl (errorString "discoverd down");
     DialHost := DialHost okCluster; AddJobs := AddJobs okCluster |}.

(** A cluster whose first host has the empty ID. *)
Definition namelessCluster : clusterClient :=
  {| ListHosts := inr [("", {| host.HostID := ""; host.Jobs := [] |}); ("h1", h1)];
     DialHost := DialHost okCluster; AddJobs := AddJobs okCluster |}.

(** Every goroutine of a session is given the turns it needs. *)
Definition finish : list tid := [G1; G1; G1; G2; G2; G2; Main; Main].

(** The number of jobs of the application in a host map. *)
Definition belonging (app : ct.App) (hosts : list (string * host.Host)) : nat :=
  fold_right (λ kh n, length (List.filter (belongs app) (host.Jobs (snd kh))) + n) 0 hosts.

(** A job that carries no annotation at all, and no configuration. *)
Definition bareJob : host.Job :=
  {| host.ID := "j0"; host.Attributes := ∅; host.Config := None |}.

Definition bareHosts : list (string * host.Host) :=
  [("h1", {| host.HostID := "h1"; host.Jobs := [bareJob] |})].

(** A job of application A that has neither a type nor a configuration,
    listed behind the web job of [h1]. *)
Definition nilJob : host.Job :=
  {| host.ID := "j3";
     host.Attributes := {[ "flynn-controller.app" := "A";
                           "flynn-controller.release" := "rel1" ]};
     host.Config := None |}.

Definition nilHosts : list (string * host.Host) :=
  [("h1", {| host.HostID := "h1"; host.Jobs := [webJob; nilJob] |})].

Definition nilCluster : clusterClient :=
  {| ListHosts := inr nilHosts;
     DialHost := DialHost okCluster; AddJobs := AddJobs okCluster |}.

(** The host that a run-job request selects, if the snapshot can be
    taken. *)
Definition selectedHost (cl : clusterClient) : string :=
  match ListHosts cl with inr hosts => pickHost hosts | inl _ => "" end.

(** The dial of a host that the cluster reaches: it opens a connection. *)
Definition isOpenedDial (cl : clusterClient) (e : event) : bool :=
  match e with
  | EDialHost h => match DialHost cl h with inr _ => true | inl _ => false end
  | _ => false
  end.

(** An attach that the selected host accepts: it opens a session. *)
Definition isOpenedAttach (cl : clusterClient) (e : event) : bool :=
  match e with
  | EAttach r interactive =>
      match DialHost cl (selectedHost cl) with
      | inr client =>
          match Attach client r interactive with inr _ => true | inl _ => false end
      | inl _ => false
      end
  | _ => false
  end.

(** * Properties *)

(** ** Splitting at the first separator *)

Section Cut.
Variable sep : ascii.

Lemma cut_None s : strings.cut sep s = None ↔ strings.has sep s = false.
Proof.
  induction s as [|c s IH]; simpl; [done|].
  destruct (Ascii.eqb c sep); simpl; [split; discriminate|].
  destruct (strings.cut sep s) as [[a b]|]; rewrite <- IH; split; done.
Qed.

Lemma cut_Some s a b :
  strings.cut sep s = Some (a, b) →
  s = a +:+ String sep b ∧ strings.has sep a = false.
Proof.
  revert a; induction s as [|c s IH]; intros a; simpl; [done|].
  destruct (Ascii.eqb_spec c sep) as [->|Hne].
  - intros [= <- <-]. done.
  - destruct (strings.cut sep s) as [[a' b']|]; [|done].
    intros [= <- <-]. destruct (IH a' eq_refl) as [-> Hno].
    split; [done|]. simpl. by rewrite (proj2 (Ascii.eqb_neq c sep) Hne).
Qed.

Lemma cut_first h rest :
  strings.has sep h = false →
  strings.cut sep (h +:+ String sep rest) = Some (h, rest).
Proof.
  induction h as [|c h IH]; simpl.
  - intros _. by rewrite Ascii.eqb_refl.
  - destruct (Ascii.eqb c sep); simpl; [done|].
    intros Hno. by rewrite (IH Hno).
Qed.
End Cut.

Lemma SplitN_2 s :
  strings.SplitN s dash 2 =
  match strings.cut dash s with
  | None => [s]
  | Some (a, b) => [a; b]
  end.
Proof. simpl. by destruct (strings.cut dash s) as [[a b]|]. Qed.

Lemma parseJobID_cut params a b :
  strings.cut dash (get params "jobs_id") = Some (a, b) →
  a ≠ "" → b ≠ "" → parseJobID params = (a, b).
Proof.
  intros Hcut Ha Hb. unfold parseJobID. rewrite SplitN_2, Hcut.
  apply String.eqb_neq in Ha, Hb. by rewrite Ha, Hb.
Qed.

Lemma parseJobID_malformed params :
  malformed (get params "jobs_id") → parseJobID params = ("", "").
Proof.
  unfold malformed, parseJobID. rewrite SplitN_2.
  destruct (strings.cut dash (get params "jobs_id")) as [[a b]|]; [|done].
  intros [-> | ->]; [done|]. by rewrite String.eqb_refl, orb_true_r.
Qed.

Lemma parseJobID_wellformed params :
  ¬ malformed (get params "jobs_id") →
  ∃ a b, strings.cut dash (get params "jobs_id") = Some (a, b) ∧
         a ≠ "" ∧ b ≠ "" ∧ parseJobID params = (a, b).
Proof.
  unfold malformed.
  destruct (strings.cut dash (get params "jobs_id")) as [[a b]|] eqn:Hcut; [|tauto].
  intros Hm. exists a, b.
  assert (a ≠ "" ∧ b ≠ "") as [Ha Hb] by (split; intros ->; tauto).
  eauto using parseJobID_cut.
Qed.

(** A rejected ID ends the middleware at once. *)
Lemma connectHostMiddleware_malformed params cl next :
  malformed (get params "jobs_id") →
  run (connectHostMiddleware params cl next) =
  [ELog (get params "jobs_id"); EError ErrNotFound].
Proof.
  intros Hm. unfold connectHostMiddleware.
  by rewrite (parseJobID_malformed _ Hm).
Qed.

Example parse_plain : parse "h1-job7" = ("h1", "job7").
Proof. reflexivity. Qed.

Example parse_badid : parse "badid" = ("", "").
Proof. reflexivity. Qed.

Example parse_more_dashes : parse "h1-job-7" = ("h1", "job-7").
Proof. reflexivity. Qed.

Example parse_empty_sides : parse "-job7" = ("", "") ∧ parse "h1-" = ("", "").
Proof. split; reflexivity. Qed.

(** C1, as amended.  A composite ID [h-rest] with non-empty [h] that holds
    no ['-'] and non-empty [rest] (which may hold further ['-']) parses to
    exactly [(h, rest)]; and for an ID with no ['-'], or with nothing on
    one side of its first ['-'], the kill or log operation (any handler
    chain behind the middleware) answers [ErrNotFound], runs no handler and
    dials no host. *)
Theorem parseJobID_first_dash :
  (∀ params h rest,
     get params "jobs_id" = h +:+ "-" +:+ rest →
     h ≠ "" → rest ≠ "" → strings.has dash h = false →
     parseJobID params = (h, rest)) ∧
  (∀ params cl next,
     malformed (get params "jobs_id") →
     run (connectHostMiddleware params cl next) =
       [ELog (get params "jobs_id"); EError ErrNotFound] ∧
     ∀ hostID, EDialHost hostID ∉ run (connectHostMiddleware params cl next)).
Proof.
  split.
  - intros params h rest Hid Hh Hrest Hno.
    apply parseJobID_cut; [|done..].
    rewrite Hid. by apply cut_first.
  - intros params cl next Hm.
    rewrite (connectHostMiddleware_malformed _ _ _ Hm).
    split; [done|]. intros hostID Hin.
    repeat (apply elem_of_cons in Hin as [Hin|Hin]; [discriminate|]).
    by apply elem_of_nil in Hin.
Qed.

Lemma parseJobID_first_dash_witness :
  parseJobID {[ "jobs_id" := "h1-job-7" ]} = ("h1", "job-7") ∧
  run (connectHostMiddleware {[ "jobs_id" := "badid" ]} okCluster killJob) =
    [ELog "badid"; EError ErrNotFound].
Proof.
  split.
  - apply (proj1 parseJobID_first_dash {[ "jobs_id" := "h1-job-7" ]} "h1" "job-7");
      [reflexivity | discriminate | discriminate | reflexivity].
  - refine (proj1 (proj2 parseJobID_first_dash {[ "jobs_id" := "badid" ]} okCluster killJob _)).
    exact I.
Defined.

(** C1 as stated fails when the host part itself holds a ['-']: the ID
    built from [h = a-b] and [rest = c] parses to [(a, b-c)]. *)
Lemma parseJobID_dash_in_host :
  parse ("a-b" +:+ "-" +:+ "c") = ("a", "b-c") ∧
  ¬ (∀ h rest, h ≠ "" → rest ≠ "" → parse (h +:+ "-" +:+ rest) = (h, rest)).
Proof.
  split; [reflexivity|].
  intros H. by specialize (H "a-b" "c" ltac:(done) ltac:(done)).
Qed.

(** ** Lists of events *)

Lemma split_none (Q : event → bool) t pre e post :
  Forall (λ x, Q x = false) t → t = pre ++ e :: post → Q e = true → False.
Proof.
  intros HF -> HQ. apply Forall_app in HF as [_ HF].
  apply Forall_cons in HF as [HF _]. congruence.
Qed.

Lemma split_after (Q : event → bool) l1 rest pre e post :
  Forall (λ x, Q x = false) l1 → l1 ++ rest = pre ++ e :: post → Q e = true →
  ∃ pre', pre = l1 ++ pre'.
Proof.
  revert pre; induction l1 as [|x l1 IH]; intros pre HF Heq HQ; [by exists pre|].
  apply Forall_cons in HF as [Hx HF].
  destruct pre as [|y pre]; simpl in Heq; injection Heq as -> Heq; [congruence|].
  destruct (IH pre HF Heq HQ) as [pre' ->]. by exists pre'.
Qed.

(** ** Failures of resolution *)

(** C7, as amended.  A failure to resolve the release or its artifact
    aborts the request with the repository's own error, unchanged; a
    failure to parse the artifact's URI is logged and reported as the
    [ValidationError] on the field [artifact.uri]; in each of the three
    cases no call reaches the cluster or a host. *)
Theorem runJob_resolution_failures rt app newJob releases artifacts cl req :
  let t := run (runJob rt app newJob releases artifacts cl req) in
  (∀ err, releases (ct.NewReleaseID newJob) = inl err →
     t = [EReleasesGet (ct.NewReleaseID newJob); EError err]) ∧
  (∀ release err,
     releases (ct.NewReleaseID newJob) = inr release →
     artifacts (ct.ArtifactID release) = inl err →
     t = [EReleasesGet (ct.NewReleaseID newJob);
          EArtifactsGet (ct.ArtifactID release); EError err]) ∧
  (∀ release artifact err,
     releases (ct.NewReleaseID newJob) = inr release →
     artifacts (ct.ArtifactID release) = inr artifact →
     DockerImage rt (ct.URI artifact) = inl err →
     t = [EReleasesGet (ct.NewReleaseID newJob);
          EArtifactsGet (ct.ArtifactID release); ELogParse err;
          EError (ValidationError "artifact.uri" "is invalid")]) ∧
  ((∀ release image, ¬ resolves rt releases artifacts newJob release image) →
     Forall (λ e, contactsHost e = false) t).
Proof.
  intros t; subst t. repeat split.
  - intros err H. unfold runJob; eval_go. rewrite H; eval_go. done.
  - intros release err H1 H2. unfold runJob; eval_go.
    rewrite H1; eval_go. rewrite H2; eval_go. done.
  - intros release artifact err H1 H2 H3. unfold runJob; eval_go.
    rewrite H1; eval_go. rewrite H2; eval_go. rewrite H3; eval_go. done.
  - intros Hno.
    runJob_paths rt app newJob releases artifacts cl req;
      try (each_event; fail);
      by destruct (Hno release' image'); split; eauto.
Qed.

Lemma runJob_resolution_failures_witness :
  run (runJob okRuntime appA lsJob (λ _, inl ErrNotFound) okArtifacts okCluster plainReq)
  = [EReleasesGet "rel1"; EError ErrNotFound].
Proof.
  apply (proj1 (runJob_resolution_failures okRuntime appA lsJob
                  (λ _, inl ErrNotFound) okArtifacts okCluster plainReq) ErrNotFound).
  reflexivity.
Defined.

(** C7 as stated fails: a release that the repository does not find is
    reported as the repository's [ErrNotFound], not as a
    [ValidationError]. *)
Lemma runJob_release_not_found :
  let t := run (runJob okRuntime appA lsJob (λ _, inl ErrNotFound)
                  okArtifacts okCluster plainReq) in
  t = [EReleasesGet "rel1"; EError ErrNotFound] ∧
  ∀ field message, EError (ValidationError field message) ∉ t.
Proof.
  split; [reflexivity|]. intros field message Hin.
  repeat (apply elem_of_cons in Hin as [Hin|Hin]; [discriminate|]).
  by apply elem_of_nil in Hin.
Qed.

(** ** Host selection *)

Lemma pickHost_empty : pickHost [] = "".
Proof. reflexivity. Qed.

(** C6, as amended.  When the host directory snapshot is empty, the
    dispatcher never dials a host, never attaches and never submits a job,
    and its last word is an error; for a request whose release, artifact
    and image resolve that error is the no-hosts-found error, reported
    right after the snapshot is taken. *)
Theorem runJob_no_hosts rt app newJob releases artifacts cl req :
  ListHosts cl = inr [] →
  let t := run (runJob rt app newJob releases artifacts cl req) in
  Forall (λ e, isDialHost e = false ∧ isAttach e = false ∧ isAddJobs e = false) t ∧
  (∃ pre err, t = pre ++ [EError err]) ∧
  (∀ release image,
     resolves rt releases artifacts newJob release image →
     t = [EReleasesGet (ct.NewReleaseID newJob);
          EArtifactsGet (ct.ArtifactID release);
          EListHosts; EError (errorString "no hosts found")]).
Proof.
  intros Hempty t; subst t.
  runJob_paths rt app newJob releases artifacts cl req;
    try congruence;
    try (assert (hosts' = []) as -> by congruence);
    try discriminate Hpick.
  all: split; [each_event|].
  all: split;
    [first [ eexists [_], _; reflexivity
           | eexists [_; _], _; reflexivity
           | eexists [_; _; _], _; reflexivity ]|].
  all: intros release image (Hr & artifact & Ha & Hi); congruence.
Qed.

Lemma runJob_no_hosts_witness :
  run (runJob okRuntime appA lsJob okReleases okArtifacts emptyCluster attachReq)
  = [EReleasesGet "rel1"; EArtifactsGet "art"; EListHosts;
     EError (errorString "no hosts found")].
Proof.
  refine (proj2 (proj2 (runJob_no_hosts okRuntime appA lsJob okReleases okArtifacts
                          emptyCluster attachReq eq_refl))
            {| ct.RelID := "rel1"; ct.ArtifactID := "art"; ct.RelEnv := ∅ |}
            "docker://img" _).
  split; [reflexivity|]. eexists. split; reflexivity.
Defined.

(** C6 as stated fails for a request whose release does not resolve: on
    an empty snapshot it fails with the repository's error, before the
    snapshot is even taken, and never reports that no host was found. *)
Lemma runJob_no_hosts_unresolved :
  ListHosts emptyCluster = inr [] ∧
  let t := run (runJob okRuntime appA lsJob (λ _, inl ErrNotFound)
                  okArtifacts emptyCluster plainReq) in
  t = [EReleasesGet "rel1"; EError ErrNotFound] ∧
  EError (errorString "no hosts found") ∉ t.
Proof.
  split; [reflexivity|]. split; [reflexivity|]. intros Hin.
  repeat (apply elem_of_cons in Hin as [Hin|Hin]; [discriminate|]).
  by apply elem_of_nil in Hin.
Qed.

(** ** Interactive dispatch: attach, then submit *)

(** C2.  In every interactive dispatch, a submission ([AddJobs]) is
    preceded in the trace by the dial of the selected host and by the
    attach request for the new job, both answered with success; and when
    the attach session cannot be established, no job is submitted, an
    error is reported and no successful answer is given. *)
Theorem runJob_attach_before_submit rt app newJob releases artifacts cl req :
  interactive req →
  let t := run (runJob rt app newJob releases artifacts cl req) in
  let areq := newAttachReq (RandomJobID rt) newJob in
  (∀ pre e post,
     t = pre ++ e :: post → isAddJobs e = true →
     ∃ hosts, ListHosts cl = inr hosts ∧
              established cl (pickHost hosts) areq ∧
              EDialHost (pickHost hosts) ∈ pre ∧ EAttach areq true ∈ pre) ∧
  ((∀ hosts, ListHosts cl = inr hosts → ¬ established cl (pickHost hosts) areq) →
     Forall (λ e, isAddJobs e = false) t ∧
     (∃ err, EError err ∈ t) ∧
     Forall (λ e, isReply e = false) t).
Proof.
  intros Hint. unfold interactive in Hint. cbv zeta. split.
  - intros pre e post.
    runJob_paths rt app newJob releases artifacts cl req; try congruence.
    1-7: intros Heq HQ; exfalso;
         eapply (split_none isAddJobs); [|exact Heq|exact HQ]; each_event.
    all: intros Heq HQ; exists hosts';
         (split; [done|]); (split; [do 2 eexists; split; [exact Hdial|exact Hatt]|]);
         eapply (split_after isAddJobs
                   [_; _; _; EDialHost _; EAttach _ true]) in Heq as [pre' ->];
         [|each_event|done];
         norm_app; rewrite !elem_of_cons;
         split; repeat first [left; reflexivity | right].
  - intros Hno.
    runJob_paths rt app newJob releases artifacts cl req; try congruence.
    1-7: split; [each_event|]; (split; [|each_event]);
         eexists; rewrite !elem_of_cons;
         repeat first [left; reflexivity | right].
    all: destruct (Hno hosts' eq_refl); do 2 eexists; split; [exact Hdial|exact Hatt].
Qed.

Lemma runJob_attach_before_submit_witness :
  ∃ hosts, ListHosts okCluster = inr hosts ∧
           established okCluster (pickHost hosts) (newAttachReq "job7" lsJob) ∧
           EDialHost (pickHost hosts) ∈ okDispatched ∧
           EAttach (newAttachReq "job7" lsJob) true ∈ okDispatched.
Proof.
  apply (proj1 (runJob_attach_before_submit okRuntime appA lsJob okReleases
                  okArtifacts okCluster attachReq eq_refl)
           okDispatched (EAddJobs (newAddJobsReq "h1" okJob)) okSession);
    [vm_compute; reflexivity | reflexivity].
Defined.

(** ** The duplex proxy *)

Lemma interleave_app_l {A} (x l1 l2 l : list A) :
  interleave l1 l2 l → interleave (x ++ l1) l2 (x ++ l).
Proof. intros H. induction x as [|a x IH]; [done|]. by apply interleave_l. Qed.

Lemma interleave_app_r {A} (x l1 l2 l : list A) :
  interleave l1 l2 l → interleave l1 (x ++ l2) (x ++ l).
Proof. intros H. induction x as [|a x IH]; [done|]. by apply interleave_r. Qed.

Lemma interleave_Forall {A} (P : A → Prop) (l1 l2 l : list A) :
  interleave l1 l2 l → Forall P l1 → Forall P l2 → Forall P l.
Proof.
  induction 1 as [|x l1 l2 l _ IH|x l1 l2 l _ IH]; intros H1 H2; [done|..].
  - apply Forall_cons in H1 as [??]. apply List.Forall_cons; auto.
  - apply Forall_cons in H2 as [??]. apply List.Forall_cons; auto.
Qed.

Lemma act_step_events a d evs d' :
  act_step a d = Some (evs, d') →
  evs = act_events a ∧ d + sends [a] = d' + recvs [a].
Proof.
  destruct a; simpl; unfold sends, recvs; simpl.
  - intros [= <- <-]. split; [done|lia].
  - intros [= <- <-]. split; [done|lia].
  - destruct (Nat.ltb d done_cap); [|done]. intros [= <- <-]. split; [done|lia].
  - destruct d as [|d0]; [done|]. intros [= <- <-]. split; [done|lia].
Qed.

Lemma sends_app l1 l2 : sends (l1 ++ l2) = sends l1 + sends l2.
Proof. unfold sends. by rewrite List.filter_app, length_app. Qed.

Lemma recvs_app l1 l2 : recvs (l1 ++ l2) = recvs l1 + recvs l2.
Proof. unfold recvs. by rewrite List.filter_app, length_app. Qed.

(** One move of the scheduler: nothing happens, or the chosen goroutine
    does its next action. *)
Lemma pool_step_cases t p evs p' :
  pool_step t p = (evs, p') →
  (evs = [] ∧ p' = p) ∨
  ∃ a rest d, thread t p = a :: rest ∧ act_step a (done p) = Some (evs, d) ∧
              p' = advance t rest d p.
Proof.
  unfold pool_step. destruct (thread t p) as [|a rest] eqn:Ht.
  - intros [= <- <-]. by left.
  - destruct (act_step a (done p)) as [[evs0 d]|] eqn:Ha.
    + intros [= <- <-]. right. by exists a, rest, d.
    + intros [= <- <-]. by left.
Qed.

(** Whatever the schedule: each goroutine has done a prefix of its
    actions, the trace merges the events of the two copy loops in their
    own order, and the channel holds the signals sent and not yet
    received. *)
Lemma schedule_interleave s : ∀ p evs p',
  schedule s p = (evs, p') →
  acts_events (main p) = [] →
  ∃ d1 d2 dm,
    g1 p = d1 ++ g1 p' ∧ g2 p = d2 ++ g2 p' ∧ main p = dm ++ main p' ∧
    interleave (acts_events d1) (acts_events d2) evs ∧
    done p + sends (d1 ++ d2 ++ dm) = done p' + recvs (d1 ++ d2 ++ dm).
Proof.
  induction s as [|t s IH]; intros p evs p'; simpl.
  - intros [= <- <-] _. exists [], [], []. repeat split; constructor.
  - destruct (pool_step t p) as [e1 p1] eqn:Hstep.
    destruct (schedule s p1) as [e2 p2] eqn:Hrest.
    intros [= <- <-] Hmain.
    apply pool_step_cases in Hstep as [[-> ->]|(a & rest & d & Ht & Ha & ->)].
    { by apply IH. }
    apply act_step_events in Ha as [-> Hd].
    destruct t; simpl in Ht.
    + destruct (IH _ _ _ Hrest Hmain) as (d1 & d2 & dm & H1 & H2 & Hm & Hi & Hc).
      simpl in *. exists (a :: d1), d2, dm. rewrite Ht, H1.
      repeat split; try done.
      * by apply interleave_app_l.
      * change (a :: d1) with ([a] ++ d1).
        rewrite <- !app_assoc, sends_app, recvs_app. lia.
    + destruct (IH _ _ _ Hrest Hmain) as (d1 & d2 & dm & H1 & H2 & Hm & Hi & Hc).
      simpl in *. exists d1, (a :: d2), dm. rewrite Ht, H2.
      repeat split; try done.
      * by apply interleave_app_r.
      * rewrite !sends_app, !recvs_app in *.
        change (a :: d2) with ([a] ++ d2).
        rewrite sends_app, recvs_app. lia.
    + rewrite Ht in Hmain. simpl in Hmain.
      apply app_eq_nil in Hmain as [Ha Hmain].
      destruct (IH _ _ _ Hrest Hmain) as (d1 & d2 & dm & H1 & H2 & Hm & Hi & Hc).
      simpl in *. exists d1, d2, (a :: dm). rewrite Ht, Hm, Ha.
      repeat split; try done.
      rewrite !sends_app, !recvs_app in *.
      change (a :: dm) with ([a] ++ dm).
      rewrite sends_app, recvs_app. lia.
Qed.

(** The session, under every schedule: each copy loop has done a prefix
    of "copy, half-close the destination, signal"; and when the handler
    has received twice, both loops have run to their end. *)
Lemma session_runs s evs p :
  schedule s session_start = (evs, p) →
  ∃ d1 d2,
    d1 `prefix_of` cp Transport AttachConn ∧
    d2 `prefix_of` cp AttachConn Transport ∧
    interleave (acts_events d1) (acts_events d2) evs ∧
    (main p = [] → d1 = cp Transport AttachConn ∧ d2 = cp AttachConn Transport).
Proof.
  intros Hs.
  destruct (schedule_interleave _ _ _ _ Hs eq_refl)
    as (d1 & d2 & dm & H1 & H2 & Hm & Hi & Hc).
  exists d1, d2. simpl in H1, H2, Hm, Hc.
  split; [by exists (g1 p)|]. split; [by exists (g2 p)|]. split; [done|].
  intros Hp. rewrite Hp, app_nil_r in Hm. subst dm.
  rewrite !sends_app, !recvs_app in Hc.
  unfold cp in H1, H2.
  destruct d1 as [|? [|? [|? [|? ?]]]]; simplify_eq/=;
    destruct d2 as [|? [|? [|? [|? ?]]]]; simplify_eq/=;
    unfold sends, recvs in Hc; simpl in Hc; try lia; done.
Qed.

Lemma cp_events to from :
  acts_events (cp to from) = [ECopied to from; ECloseWrite to; EDone].
Proof. reflexivity. Qed.

Lemma prefix_cp_no_close d to from :
  d `prefix_of` cp to from →
  Forall (λ e, isCloseOf Transport e = false ∧ isCloseOf AttachConn e = false)
         (acts_events d).
Proof.
  intros [k Hk]. unfold cp in Hk.
  destruct d as [|? [|? [|? [|? ?]]]]; simplify_eq/=; each_event.
Qed.

(** C4.  In an interactive session that reaches the duplex proxy, under
    every schedule of the two copy loops and the handler: the events of
    the session merge, each in its own order, a prefix of "copy ended,
    half-close ([CloseWrite]) of the destination, completion signal" for
    either direction, so a loop never closes a connection fully; and the
    transport connection, the attach channel and the host dial are closed
    after all events of the session, and only if the handler has received
    both completion signals, in which case both loops have run to their
    end.  Otherwise the handler is still waiting and nothing is closed. *)
Theorem runJob_duplex_proxy
    rt app newJob releases artifacts cl req release image hosts client stream evs p :
  interactive req →
  resolves rt releases artifacts newJob release image →
  ListHosts cl = inr hosts →
  pickHost hosts ≠ "" →
  DialHost cl (pickHost hosts) = inr client →
  Attach client (newAttachReq (RandomJobID rt) newJob) true = inr (stream, None) →
  AddJobs cl (newAddJobsReq (pickHost hosts)
                (newHostJob rt app newJob release image true)) = None →
  HijackResult rt = None →
  schedule (sched rt) session_start = (evs, p) →
  ∃ d1 d2,
    d1 `prefix_of` cp Transport AttachConn ∧
    d2 `prefix_of` cp AttachConn Transport ∧
    interleave (acts_events d1) (acts_events d2) evs ∧
    Forall (λ e, isCloseOf Transport e = false ∧ isCloseOf AttachConn e = false) evs ∧
    run (runJob rt app newJob releases artifacts cl req) =
      [EReleasesGet (ct.NewReleaseID newJob);
       EArtifactsGet (ct.ArtifactID release);
       EListHosts;
       EDialHost (pickHost hosts);
       EAttach (newAttachReq (RandomJobID rt) newJob) true;
       EAddJobs (newAddJobsReq (pickHost hosts)
                   (newHostJob rt app newJob release image true));
       EAttachWait;
       EHeaderSet "Content-Type" "application/vnd.flynn.attach";
       EHeaderSet "Content-Length" "0";
       EWriteHeader 101;
       EHijack] ++ evs ++
      match main p with
      | [] => teardown (pickHost hosts)
      | _ => []
      end ∧
    (main p = [] →
     d1 = cp Transport AttachConn ∧ d2 = cp AttachConn Transport).
Proof.
  intros Hint (Hr & artifact & Ha & Hi) Hhosts0 Hpick0 Hdial0 Hatt0 Hadd0 Hhj0 Hs0.
  unfold interactive in Hint.
  destruct (session_runs _ _ _ Hs0) as (d1 & d2 & Hp1 & Hp2 & Hil & Hend).
  exists d1, d2. repeat split; try done.
  - eapply interleave_Forall; eauto using prefix_cp_no_close.
  - runJob_paths rt app newJob releases artifacts cl req;
      try (apply String.eqb_eq in Hpick);
      try (apply String.eqb_neq in Hpick);
      simplify_eq; try congruence.
    + replace image' with image by congruence. by rewrite Hmain.
    + replace image' with image by congruence. rewrite Hmain. by rewrite app_nil_r.
  - by apply Hend.
  - by apply Hend.
Qed.

Lemma runJob_duplex_proxy_witness :
  ∃ d1 d2 : list act,
    d1 `prefix_of` cp Transport AttachConn ∧
    d2 `prefix_of` cp AttachConn Transport ∧
    interleave (acts_events d1) (acts_events d2)
      [ECopied Transport AttachConn; ECloseWrite Transport; EDone;
       ECopied AttachConn Transport; ECloseWrite AttachConn; EDone] ∧
    Forall (λ e, isCloseOf Transport e = false ∧ isCloseOf AttachConn e = false)
      [ECopied Transport AttachConn; ECloseWrite Transport; EDone;
       ECopied AttachConn Transport; ECloseWrite AttachConn; EDone] ∧
    run (runJob okRuntime appA lsJob okReleases okArtifacts okCluster attachReq) =
      [EReleasesGet "rel1"; EArtifactsGet "art"; EListHosts; EDialHost "h1";
       EAttach (newAttachReq "job7" lsJob) true;
       EAddJobs (newAddJobsReq "h1"
         (newHostJob okRuntime appA lsJob
            {| ct.RelID := "rel1"; ct.ArtifactID := "art"; ct.RelEnv := ∅ |}
            "docker://img" true));
       EAttachWait;
       EHeaderSet "Content-Type" "application/vnd.flynn.attach";
       EHeaderSet "Content-Length" "0";
       EWriteHeader 101;
       EHijack] ++
      [ECopied Transport AttachConn; ECloseWrite Transport; EDone;
       ECopied AttachConn Transport; ECloseWrite AttachConn; EDone] ++
      teardown "h1" ∧
    (@nil act = [] →
     d1 = cp Transport AttachConn ∧ d2 = cp AttachConn Transport).
Proof.
  refine (runJob_duplex_proxy okRuntime appA lsJob okReleases okArtifacts
            okCluster attachReq
            {| ct.RelID := "rel1"; ct.ArtifactID := "art"; ct.RelEnv := ∅ |}
            "docker://img" [("h1", h1)] okHost okStream _
            {| g1 := []; g2 := []; main := []; done := 0 |}
            eq_refl _ eq_refl _ eq_refl eq_refl eq_refl eq_refl eq_refl).
  - split; [reflexivity|]. eexists. split; reflexivity.
  - discriminate.
Defined.

(** A caller that never ends its input: the loop from the job has
    finished, the handler has received one signal and waits for the
    other; nothing is closed. *)
Example session_waits :
  run (runJob (withSched [G1; G1; G1; Main; Main]) appA lsJob okReleases okArtifacts
         okCluster attachReq) =
  [EReleasesGet "rel1"; EArtifactsGet "art"; EListHosts; EDialHost "h1";
   EAttach (newAttachReq "job7" lsJob) true;
   EAddJobs (newAddJobsReq "h1"
     (newHostJob okRuntime appA lsJob
        {| ct.RelID := "rel1"; ct.ArtifactID := "art"; ct.RelEnv := ∅ |}
        "docker://img" true));
   EAttachWait;
   EHeaderSet "Content-Type" "application/vnd.flynn.attach";
   EHeaderSet "Content-Length" "0";
   EWriteHeader 101;
   EHijack;
   ECopied Transport AttachConn; ECloseWrite Transport; EDone].
Proof. reflexivity. Qed.

(** ** Listing jobs *)

Lemma jobList_job_summary app h jobs j :
  jobList_job app h jobs j =
  if hasConfig app j
  then Some (jobs ++ (if belongs app j then [summary h j] else []))
  else None.
Proof.
  unfold jobList_job, hasConfig, belongs, summary, untyped, configuredCmd.
  destruct (String.eqb _ (ct.AppID app)), (String.eqb _ ""), (host.Config j);
    simpl; by rewrite ?app_nil_r.
Qed.

Lemma jobList_inner app h js : ∀ acc,
  fold_left (λ acc j, jobs ← acc; jobList_job app h jobs j) js acc =
  jobs ← acc;
  if forallb (hasConfig app) js
  then Some (jobs ++ map (summary h) (List.filter (belongs app) js))
  else None.
Proof.
  induction js as [|j js IH]; intros [jobs|]; simpl; rewrite ?IH; try done.
  - by rewrite app_nil_r.
  - rewrite jobList_job_summary.
    destruct (hasConfig app j); simpl; [|done].
    destruct (forallb (hasConfig app) js); [|done].
    destruct (belongs app j); simpl; by rewrite <- app_assoc.
Qed.

Lemma jobList_outer app hosts : ∀ acc,
  fold_left (λ acc kh,
               fold_left (λ acc j, jobs ← acc; jobList_job app (snd kh) jobs j)
                         (host.Jobs (snd kh)) acc)
            hosts acc =
  jobs ← acc;
  if configured app hosts then Some (jobs ++ listing app hosts) else None.
Proof.
  induction hosts as [|kh hosts IH]; intros [jobs|]; simpl; rewrite ?IH, ?jobList_inner;
    try done.
  - by rewrite app_nil_r.
  - simpl. destruct (forallb (hasConfig app) (host.Jobs kh.2)); simpl; [|done].
    destruct (configured app hosts); [|done].
    by rewrite <- app_assoc.
Qed.

Lemma jobList_loop_listing app hosts :
  jobList_loop app hosts = if configured app hosts then Some (listing app hosts) else None.
Proof. unfold jobList_loop. by rewrite jobList_outer. Qed.

Lemma elem_of_listing app hosts s :
  s ∈ listing app hosts ↔
  ∃ k h j, (k, h) ∈ hosts ∧ j ∈ host.Jobs h ∧
           get (host.Attributes j) "flynn-controller.app" = ct.AppID app ∧
           s = summary h j.
Proof.
  unfold listing. rewrite list_elem_of_In, in_flat_map. split.
  - intros ([k h] & Hkh & Hs). simpl in Hs.
    apply in_map_iff in Hs as (j & <- & Hj).
    apply filter_In in Hj as [Hj Hb].
    exists k, h, j. rewrite !list_elem_of_In.
    repeat split; try done. by apply String.eqb_eq.
  - intros (k & h & j & Hkh & Hj & Happ & ->).
    exists (k, h). rewrite <- list_elem_of_In. split; [done|]. simpl.
    apply in_map, filter_In. rewrite <- list_elem_of_In. split; [done|].
    by apply String.eqb_eq.
Qed.

(** C9, as amended.  For every host snapshot in which every job of the
    application that has no type annotation has a configuration, [jobList]
    answers 200 with the list made, host by host and job by job, of the
    summaries of exactly the jobs whose app annotation is the application's
    ID: a summary is listed if and only if it is the summary (composite
    ID, type annotation, release annotation, and the command only when the
    type is empty) of such a job of some host of the snapshot. *)
Theorem jobList_lists app cc hosts :
  ListHosts cc = inr hosts →
  configured app hosts = true →
  ∃ jobs,
    jobList_loop app hosts = Some jobs ∧
    run (jobList app cc) = [EListHosts; EJSON 200 (Jobs jobs)] ∧
    jobs = listing app hosts ∧
    (∀ s, s ∈ jobs ↔
          ∃ k h j, (k, h) ∈ hosts ∧ j ∈ host.Jobs h ∧
                   get (host.Attributes j) "flynn-controller.app" = ct.AppID app ∧
                   s = summary h j).
Proof.
  intros Hhosts Hcfg. exists (listing app hosts).
  assert (jobList_loop app hosts = Some (listing app hosts)) as Hloop
    by by rewrite jobList_loop_listing, Hcfg.
  split; [done|]. split; [|split; [done|]].
  - unfold jobList; eval_go. rewrite Hhosts; eval_go. rewrite Hloop; eval_go. done.
  - intros s. apply elem_of_listing.
Qed.

Lemma jobList_lists_witness :
  ∃ jobs,
    jobList_loop appA [("h1", {| host.HostID := "h1"; host.Jobs := [webJob] |});
                       ("h2", {| host.HostID := "h2"; host.Jobs := [otherJob] |})]
      = Some jobs ∧
    run (jobList appA twoHosts) = [EListHosts; EJSON 200 (Jobs jobs)] ∧
    jobs = [ {| ct.ID := "h1-j1"; ct.Type_ := "web";
                ct.ReleaseID := "rel1"; ct.Cmd := [] |} ] ∧
    (∀ s, s ∈ jobs ↔
          ∃ k h j,
            (k, h) ∈ [("h1", {| host.HostID := "h1"; host.Jobs := [webJob] |});
                      ("h2", {| host.HostID := "h2"; host.Jobs := [otherJob] |})] ∧
            j ∈ host.Jobs h ∧
            get (host.Attributes j) "flynn-controller.app" = ct.AppID appA ∧
            s = summary h j).
Proof.
  exact (jobList_lists appA twoHosts _ eq_refl eq_refl).
Defined.

(** C9 as stated fails for a snapshot that holds a job of the application
    with neither a type nor a configuration: reading its command panics,
    and the listing answers nothing, not even the summaries of the jobs
    met before it. *)
Lemma jobList_nil_config :
  ListHosts nilCluster = inr nilHosts ∧
  belongs appA nilJob = true ∧
  jobList_loop appA nilHosts = None ∧
  run (jobList appA nilCluster) = [EListHosts; EPanic nilDereference] ∧
  (∀ code v, EJSON code v ∉ run (jobList appA nilCluster)).
Proof.
  repeat split; try reflexivity.
  intros code v Hin.
  repeat (apply elem_of_cons in Hin as [Hin|Hin]; [discriminate|]).
  by apply elem_of_nil in Hin.
Qed.

(** ** The stream multiplexer *)

Lemma append_assoc (s1 s2 s3 : string) : (s1 +:+ s2) +:+ s3 = s1 +:+ s2 +:+ s3.
Proof.
  induction s1 as [|a s1 IH]; [reflexivity|].
  change (String a ((s1 +:+ s2) +:+ s3) = String a (s1 +:+ s2 +:+ s3)).
  by rewrite IH.
Qed.

Lemma append_nil_r (s : string) : s +:+ "" = s.
Proof.
  induction s as [|a s IH]; [reflexivity|].
  change (String a (s +:+ "") = String a s). by rewrite IH.
Qed.

Lemma body_app t1 t2 : body (t1 ++ t2) = body t1 +:+ body t2.
Proof.
  induction t1 as [|e t1 IH]; [reflexivity|].
  destruct e as [| | | | | | | | | | | | | | | | | | | |p [err|]| | |]; try exact IH.
  change (p +:+ body (t1 ++ t2) = (p +:+ body t1) +:+ body t2).
  by rewrite IH, append_assoc.
Qed.

Lemma body_frame_events rt s p : body (frame_events rt s p) = sseFrame rt s p.
Proof.
  change ("data: " +:+ (Marshal rt s p +:+ LF) +:+ LF +:+ "" = sseFrame rt s p).
  unfold sseFrame. by rewrite append_nil_r, append_assoc.
Qed.

(** One call of [Write] on a writer that accepts its three writes and
    whose encoder has kept no error. *)
Lemma sse_Write_accepted {R'} rt s p f :
  accepts rt (writes f) 3 →
  encoder f = None →
  sseLogStreamWriter_Write (R' := R') rt s p f =
  (Next (String.length p, None),
   {| trace := trace f ++ frame_events rt s p;
      deferred := deferred f;
      writes := 3 + writes f;
      encoder := None |}).
Proof.
  destruct f as [tr df n enc]. cbn [trace deferred writes encoder]. intros Hacc ->.
  pose proof (Hacc 0 ltac:(lia)) as H0.
  pose proof (Hacc 1 ltac:(lia)) as H1.
  pose proof (Hacc 2 ltac:(lia)) as H2.
  rewrite Nat.add_0_r in H0. rewrite Nat.add_1_r in H1.
  replace (n + 2) with (S (S n)) in H2 by lia.
  unfold sseLogStreamWriter_Write, Encode, w_Write; eval_go.
  rewrite H0; eval_go. rewrite H1; eval_go. rewrite H2; eval_go.
  unfold frame_events. by rewrite <- !app_assoc.
Qed.

(** C3, as amended.  One [Write] call with chunk [p] on the handle of
    stream [s]: in every state, the call takes the lock first, releases it
    last and in between only writes to the sink; and when the encoder of
    the log writer has kept no earlier write error and the sink accepts
    the three writes of the call, they are exactly the prefix "data: ", the
    JSON record of [s] and [p] with its newline, and the line terminator,
    so that the sink gains exactly the frame of this call, and the call
    answers the length of [p] and no error. *)
Theorem sse_Write_one_frame rt s p f :
  (∃ ws, trace (snd (sseLogStreamWriter_Write (R' := unit) rt s p f)) =
           trace f ++ [ELock] ++ ws ++ [EUnlock] ∧
         Forall (λ e, isWrite e = true) ws) ∧
  (accepts rt (writes f) 3 →
   encoder f = None →
   let '(r, f') := sseLogStreamWriter_Write (R' := unit) rt s p f in
   r = Next (String.length p, None) ∧
   trace f' = trace f ++
     [ELock; EWrite "data: " None; EWrite (Marshal rt s p +:+ LF) None;
      EWrite LF None; EUnlock] ∧
   body (trace f') = body (trace f) +:+ "data: " +:+ Marshal rt s p +:+ LF +:+ LF ∧
   deferred f' = deferred f).
Proof.
  split.
  - destruct f as [tr df n enc].
    unfold sseLogStreamWriter_Write, Encode, w_Write; eval_go.
    destruct (WriteResult rt n) as [e1|]; eval_go.
    { eexists [_]. rewrite <- !app_assoc. split; [done|each_event]. }
    destruct enc as [e0|]; eval_go.
    { eexists [_]. rewrite <- !app_assoc. split; [done|each_event]. }
    destruct (WriteResult rt (S n)) as [e2|]; eval_go.
    { eexists [_; _]. rewrite <- !app_assoc. split; [done|each_event]. }
    eexists [_; _; _]. rewrite <- !app_assoc. split; [done|each_event].
  - intros Hacc Henc. rewrite (sse_Write_accepted rt s p f Hacc Henc).
    repeat split. simpl trace.
    by rewrite body_app, body_frame_events.
Qed.

Lemma sse_Write_one_frame_witness :
  let '(r, f') := sseLogStreamWriter_Write (R' := unit) okRuntime "stdout" "hello" frame0 in
  r = Next (5, None) ∧
  trace f' =
    [ELock; EWrite "data: " None;
     EWrite (sampleMarshal "stdout" "hello" +:+ LF) None;
     EWrite LF None; EUnlock] ∧
  body (trace f') = "data: " +:+ sampleMarshal "stdout" "hello" +:+ LF +:+ LF ∧
  deferred f' = [].
Proof.
  apply (proj2 (sse_Write_one_frame okRuntime "stdout" "hello" frame0));
    [intros i _|]; reflexivity.
Defined.

(** C3 as stated fails in two ways.  A sink that refuses the prefix gets
    no frame at all.  And after a call whose record could not be written,
    the encoder keeps that error: the next call, on a sink that accepts
    every write again, writes the prefix "data: " alone and answers 0
    bytes and the kept error. *)
Lemma sse_Write_no_frame :
  sseLogStreamWriter_Write (R' := unit) (failingAt 0) "stdout" "hello" frame0 =
    (Next (0, Some (errorString "broken pipe")),
     {| trace := [ELock; EWrite "data: " (Some (errorString "broken pipe")); EUnlock];
        deferred := []; writes := 1; encoder := None |}) ∧
  (sseLogStreamWriter_Write (R' := unit) (failingAt 1) "stdout" "hello";;
   sseLogStreamWriter_Write (R' := unit) (failingAt 1) "stderr" "again") frame0 =
    (Next (0, Some (errorString "broken pipe")),
     {| trace := [ELock; EWrite "data: " None;
                  EWrite (sampleMarshal "stdout" "hello" +:+ LF)
                         (Some (errorString "broken pipe"));
                  EUnlock;
                  ELock; EWrite "data: " None; EUnlock];
        deferred := []; writes := 3;
        encoder := Some (errorString "broken pipe") |}) ∧
  accepts (failingAt 1) 2 3.
Proof.
  split; [reflexivity|]. split; [reflexivity|].
  intros i _. reflexivity.
Qed.

(** A sink that breaks at the second write: the call stops there, and
    still releases the lock. *)
Example sse_Write_broken_sink :
  sseLogStreamWriter_Write (R' := unit) (failingAt 1) "stdout" "hello" frame0 =
  (Next (0, Some (errorString "broken pipe")),
   {| trace := [ELock; EWrite "data: " None;
                EWrite (sampleMarshal "stdout" "hello" +:+ LF)
                       (Some (errorString "broken pipe"));
                EUnlock];
      deferred := []; writes := 2;
      encoder := Some (errorString "broken pipe") |}).
Proof. reflexivity. Qed.

(** ** The job log as an event stream *)





(** Behind the middleware, for the composite ID [h1-job7]. *)
Example job_log_hello :
  run (connectHostMiddleware {[ "jobs_id" := "h1-job7" ]} okCluster
         (jobLog okRuntime sseReq)) =
  [EDialHost "h1";
   EAttach {| host.JobID := "job7";
              host.Flags := [host.AttachFlagStdout; host.AttachFlagStderr;
                             host.AttachFlagLogs];
              host.Height := 0; host.Width := 0 |} false;
   EHeaderSet "Content-Type" "text/event-stream; charset=utf-8";
   ELock; EWrite "data: " None;
   EWrite (sampleMarshal "stdout" "hello" +:+ LF) None;
   EWrite LF None; EUnlock;
   EWrite eof_record None;
   EClose AttachConn;
   EClientClose "h1"].
Proof. reflexivity. Qed.

(** ** The annotations of a dispatched job *)

Lemma prefix_cp_Forall (P : event → Prop) d to from :
  P (ECopied to from) → P (ECloseWrite to) → P EDone →
  d `prefix_of` cp to from → Forall P (acts_events d).
Proof.
  intros H1 H2 H3 [k Hk]. unfold cp in Hk.
  destruct d as [|? [|? [|? [|? ?]]]]; simplify_eq/=;
    repeat (apply List.Forall_cons; [done|]); apply List.Forall_nil.
Qed.

Lemma session_submits_nothing s evs p :
  schedule s session_start = (evs, p) → Forall (λ e, isAddJobs e = false) evs.
Proof.
  intros Hs. destruct (session_runs _ _ _ Hs) as (d1 & d2 & Hp1 & Hp2 & Hil & _).
  eapply interleave_Forall; [done|..]; by eapply prefix_cp_Forall.
Qed.

Lemma newHostJob_listed rt app newJob release image attach h jobs :
  jobList_job app h jobs (newHostJob rt app newJob release image attach) =
  Some (jobs ++ [ {| ct.ID := host.HostID h +:+ "-" +:+ RandomJobID rt;
                     ct.Type_ := "";
                     ct.ReleaseID := ct.RelID release;
                     ct.Cmd := ct.NewCmd newJob |} ]).
Proof.
  unfold jobList_job, newHostJob, get; cbn [host.Attributes host.ID host.Config docker.Cmd].
  rewrite lookup_insert_eq. cbn [default].
  rewrite String.eqb_refl. cbn [negb].
  rewrite lookup_insert_ne by done. rewrite lookup_singleton_ne by done.
  rewrite lookup_insert_ne by done. rewrite lookup_singleton_eq.
  reflexivity.
Qed.

(** C10.  The job record the dispatcher builds carries exactly the two
    annotations [flynn-controller.app] and [flynn-controller.release], and
    no [flynn-controller.type], and its configuration is set and holds
    the command of the request; every job that [runJob] submits is such a
    record; and when [jobList] meets it on a host, for the same
    application, it reads its configuration, and every list that it
    returns holds the job's summary, with an empty type and with the
    command of the request. *)
Theorem dispatched_job_listed_by_cmd rt app newJob releases artifacts cl req :
  let attach := strings.Contains (Accept req) "application/vnd.flynn.attach" in
  (∀ release image,
     let job := newHostJob rt app newJob release image attach in
     host.Attributes job =
       {[ "flynn-controller.app" := ct.AppID app;
          "flynn-controller.release" := ct.RelID release ]} ∧
     dom (host.Attributes job) =
       ({[ "flynn-controller.app"; "flynn-controller.release" ]} : gset string) ∧
     host.Attributes job !! "flynn-controller.type" = None ∧
     docker.Cmd <$> host.Config job = Some (ct.NewCmd newJob) ∧
     hasConfig app job = true ∧
     ∀ k h hosts,
       (k, h) ∈ hosts → job ∈ host.Jobs h →
       belongs app job = true ∧
       summary h job = {| ct.ID := host.HostID h +:+ "-" +:+ host.ID job;
                          ct.Type_ := "";
                          ct.ReleaseID := ct.RelID release;
                          ct.Cmd := ct.NewCmd newJob |} ∧
       (configured app hosts = true → is_Some (jobList_loop app hosts)) ∧
       (∀ jobs, jobList_loop app hosts = Some jobs → summary h job ∈ jobs)) ∧
  (∀ r, EAddJobs r ∈ run (runJob rt app newJob releases artifacts cl req) →
        ∃ hosts release image,
          ListHosts cl = inr hosts ∧
          r = newAddJobsReq (pickHost hosts)
                (newHostJob rt app newJob release image attach)).
Proof.
  intros attach. split.
  - intros release image job.
    assert (belongs app job = true) as Hb.
    { unfold belongs, job, newHostJob, get; cbn [host.Attributes].
      rewrite lookup_insert_eq. apply String.eqb_refl. }
    split; [done|]. split; [done|]. split; [done|]. split; [done|]. split; [done|].
    intros k h hosts Hkh Hjob. split; [exact Hb|]. split; [done|].
    rewrite jobList_loop_listing. split.
    + intros ->. by eexists.
    + intros jobs Hjobs. destruct (configured app hosts); [|done].
      injection Hjobs as <-. apply elem_of_listing.
      exists k, h, job. repeat split; try done; by apply String.eqb_eq.
  - subst attach. intros r.
    runJob_paths rt app newJob releases artifacts cl req; intros Hin;
      repeat match type of Hin with
      | _ ∈ [] => by apply elem_of_nil in Hin
      | _ ∈ _ :: _ => apply elem_of_cons in Hin as [Hin|Hin]; [try discriminate Hin|]
      | _ ∈ _ ++ _ => apply elem_of_app in Hin as [Hin|Hin]
      end;
      try (injection Hin as ->; by eexists _, _, _);
      try (apply session_submits_nothing in Hsched;
           rewrite Forall_forall in Hsched; by apply Hsched in Hin).
Qed.

Example dispatched_then_listed :
  jobList_loop appA [("h1", {| host.HostID := "h1"; host.Jobs := [okJob; otherJob] |})]
  = Some [ {| ct.ID := "h1-job7"; ct.Type_ := ""; ct.ReleaseID := "rel1";
              ct.Cmd := ["ls"] |} ].
Proof. reflexivity. Qed.

Lemma dispatched_job_listed_by_cmd_witness :
  ∃ hosts release image,
    ListHosts okCluster = inr hosts ∧
    newAddJobsReq "h1" okJob =
    newAddJobsReq (pickHost hosts)
      (newHostJob okRuntime appA lsJob release image
         (strings.Contains (Accept attachReq) "application/vnd.flynn.attach")).
Proof.
  apply (proj2 (dispatched_job_listed_by_cmd okRuntime appA lsJob okReleases
                  okArtifacts okCluster attachReq)).
  apply list_elem_of_In. vm_compute. tauto.
Defined.

(** * Further properties of the handlers *)

Lemma malformedb_spec id : malformedb id = true ↔ malformed id.
Proof.
  unfold malformedb, malformed.
  destruct (strings.cut dash id) as [[a b]|]; [|tauto].
  rewrite orb_true_iff, !String.eqb_eq. tauto.
Qed.

Lemma classic_malformed id : malformed id ∨ ¬ malformed id.
Proof.
  rewrite <- malformedb_spec. destruct (malformedb id); [by left|by right].
Qed.

(** ** [parseJobID], read backwards *)

Lemma parseJobID_recompose_lemma params h j :
  parseJobID params = (h, j) → h ≠ "" →
  get params "jobs_id" = h +:+ "-" +:+ j ∧ strings.has dash h = false ∧ j ≠ "".
Proof.
  unfold parseJobID. rewrite SplitN_2.
  destruct (strings.cut dash (get params "jobs_id")) as [[a b]|] eqn:Hcut.
  - destruct (String.eqb_spec a "") as [->|Ha]; cbn [orb].
    { intros [= <- <-]. done. }
    destruct (String.eqb_spec b "") as [->|Hb].
    { intros [= <- <-]. done. }
    intros [= <- <-] _. apply cut_Some in Hcut as [Hid Hno]. done.
  - intros [= <- <-]. done.
Qed.

(** X1.  What [parseJobID] accepts, it can be rebuilt from: a result with
    a non-empty host part means the ID is that host part, one ['-'] and
    the job part, the host part holds no ['-'] and the job part is not
    empty. *)
Theorem parseJobID_recompose params h j :
  parseJobID params = (h, j) → h ≠ "" →
  get params "jobs_id" = h +:+ "-" +:+ j ∧ strings.has dash h = false ∧ j ≠ "".
Proof. apply parseJobID_recompose_lemma. Qed.

Lemma parseJobID_recompose_witness :
  get {[ "jobs_id" := "h1-job-7" ]} "jobs_id" = "h1" +:+ "-" +:+ "job-7" ∧
  strings.has dash "h1" = false ∧ "job-7" ≠ "".
Proof.
  apply (parseJobID_recompose {[ "jobs_id" := "h1-job-7" ]} "h1" "job-7");
    [reflexivity | discriminate].
Defined.

(** X2.  [parseJobID] answers two non-empty parts or two empty strings,
    never one of each; and it answers the empty pair exactly for the IDs
    without ['-'] or with nothing on one side of the first ['-']. *)
Theorem parseJobID_both_or_neither params :
  (fst (parseJobID params) = "" ↔ snd (parseJobID params) = "") ∧
  (fst (parseJobID params) = "" ↔ malformed (get params "jobs_id")).
Proof.
  destruct (classic_malformed (get params "jobs_id")) as [Hm|Hw].
  - rewrite (parseJobID_malformed _ Hm). simpl. tauto.
  - destruct (parseJobID_wellformed _ Hw) as (a & b & _ & Ha & Hb & ->).
    simpl. tauto.
Qed.

(** ** Behind the middleware *)

Lemma names_parse params h j : names params h j → parseJobID params = (h, j).
Proof.
  intros (Hid & Hh & Hj & Hno). apply parseJobID_cut; [|done..].
  rewrite Hid. by apply cut_first.
Qed.

Lemma get_insert params k v : get (<[k := v]> params) k = v.
Proof. unfold get. by rewrite lookup_insert_eq. Qed.

Ltac enter_middleware Hn :=
  unfold connectHostMiddleware;
  rewrite (names_parse _ _ _ Hn);
  let Hh := fresh "Hh" in
  destruct Hn as (_ & Hh & _ & _);
  apply String.eqb_neq in Hh; rewrite Hh; eval_go.

(** X3.  When the host named by a well-formed ID cannot be dialed, the
    middleware reports the dial error as it is, runs no handler and closes
    nothing. *)
Theorem connectHostMiddleware_dial_failed params cl next h j err :
  names params h j →
  DialHost cl h = inl err →
  run (connectHostMiddleware params cl next) = [EDialHost h; EError err].
Proof.
  intros Hn Hdial. enter_middleware Hn. rewrite Hdial; eval_go. done.
Qed.

Lemma connectHostMiddleware_dial_failed_witness :
  run (connectHostMiddleware {[ "jobs_id" := "h1-job7" ]} unreachableCluster killJob)
  = [EDialHost "h1"; EError (errorString "connection refused")].
Proof.
  apply (connectHostMiddleware_dial_failed _ _ _ "h1" "job7");
    [repeat split; discriminate | reflexivity].
Defined.

(** X4.  The kill operation on a well-formed ID: the host part is dialed,
    the job part (and nothing else) is stopped on it, a failure to stop is
    reported unchanged, and the dial is closed exactly once, last, whether
    the stop failed or not. *)
Theorem kill_operation params cl h j client :
  names params h j →
  DialHost cl h = inr client →
  run (connectHostMiddleware params cl killJob) =
    [EDialHost h; EStopJob j] ++
    match StopJob client j with
    | Some err => [EError err]
    | None => []
    end ++ [EClientClose h].
Proof.
  intros Hn Hdial. enter_middleware Hn. rewrite Hdial; eval_go.
  unfold killJob; eval_go. rewrite get_insert.
  destruct (StopJob client j); eval_go; done.
Qed.

Lemma kill_operation_witness :
  run (connectHostMiddleware {[ "jobs_id" := "h1-job7" ]} stubbornCluster killJob)
  = [EDialHost "h1"; EStopJob "job7"; EError (errorString "no such job");
     EClientClose "h1"].
Proof.
  apply (kill_operation {[ "jobs_id" := "h1-job7" ]} stubbornCluster "h1" "job7"
           stubbornHost); [repeat split; discriminate | reflexivity].
Defined.

(** X5.  The middleware hands the rest of the chain the parameters with
    [jobs_id] replaced by the job part, and the dialed host.  It closes the
    dial after the chain when the chain returns; the close is not
    deferred, so a chain that panics leaves the dial open. *)
Theorem connectHostMiddleware_close_not_deferred params cl next h j client :
  names params h j →
  DialHost cl h = inr client →
  let inner := call (R' := unit) (next (<[ "jobs_id" := j ]> params) client) (dialed h) in
  run (connectHostMiddleware params cl next) =
    match fst inner with
    | Next _ | Ret _ => trace (snd inner) ++ [EClientClose h]
    | Panic | Hang => trace (snd inner)
    end.
Proof.
  intros Hn Hdial inner. subst inner. unfold dialed. enter_middleware Hn.
  rewrite Hdial; eval_go.
  destruct (next (<[ "jobs_id" := j ]> params) client
              {| trace := [EDialHost h]; deferred := []; writes := 0; encoder := None |})
    as [[[]| [] | |] [tr df n enc]]; eval_go; by rewrite ?app_nil_r.
Qed.

Lemma connectHostMiddleware_close_not_deferred_witness :
  run (connectHostMiddleware {[ "jobs_id" := "h1-job7" ]} okCluster panicky)
  = [EDialHost "h1"; EStopJob "job7"; EPanic (errorString "nil map")].
Proof.
  assert (names {[ "jobs_id" := "h1-job7" ]} "h1" "job7") as Hn
    by (repeat split; discriminate).
  exact (connectHostMiddleware_close_not_deferred
           {[ "jobs_id" := "h1-job7" ]} okCluster panicky "h1" "job7" okHost
           Hn eq_refl).
Defined.

(** ** The log writer and the job log, whatever the sink answers *)

(** X6.  What [Write] answers when it does not write a whole frame.  A
    failure of the prefix ends the call at once with 0 bytes and the
    sink's error.  When the prefix is written and the encoder holds the
    error of an earlier record, the call writes nothing more and answers 0
    bytes and that error.  When the encoder holds none and the record
    cannot be written, the call answers 0 bytes and the sink's error, and
    the encoder keeps it.  A failure of the final line terminator is
    answered with the full length of the chunk together with the error.
    The lock is released in each case. *)
Theorem sse_Write_errors rt s p tr df n enc err :
  let f := {| trace := tr; deferred := df; writes := n; encoder := enc |} in
  (WriteResult rt n = Some err →
   sseLogStreamWriter_Write (R' := unit) rt s p f =
   (Next (0, Some err),
    {| trace := tr ++ [ELock; EWrite "data: " (Some err); EUnlock];
       deferred := df; writes := S n; encoder := enc |})) ∧
  (WriteResult rt n = None → enc = Some err →
   sseLogStreamWriter_Write (R' := unit) rt s p f =
   (Next (0, Some err),
    {| trace := tr ++ [ELock; EWrite "data: " None; EUnlock];
       deferred := df; writes := S n; encoder := Some err |})) ∧
  (WriteResult rt n = None → enc = None → WriteResult rt (S n) = Some err →
   sseLogStreamWriter_Write (R' := unit) rt s p f =
   (Next (0, Some err),
    {| trace := tr ++ [ELock; EWrite "data: " None;
                       EWrite (Marshal rt s p +:+ LF) (Some err); EUnlock];
       deferred := df; writes := S (S n); encoder := Some err |})) ∧
  (WriteResult rt n = None → enc = None → WriteResult rt (S n) = None →
   WriteResult rt (S (S n)) = Some err →
   sseLogStreamWriter_Write (R' := unit) rt s p f =
   (Next (String.length p, Some err),
    {| trace := tr ++ [ELock; EWrite "data: " None;
                       EWrite (Marshal rt s p +:+ LF) None;
                       EWrite LF (Some err); EUnlock];
       deferred := df; writes := S (S (S n)); encoder := None |})).
Proof.
  intros f; subst f. repeat split.
  - intros H0. unfold sseLogStreamWriter_Write, Encode, w_Write; eval_go.
    rewrite H0; eval_go. by rewrite <- !app_assoc.
  - intros H0 ->. unfold sseLogStreamWriter_Write, Encode, w_Write; eval_go.
    rewrite H0; eval_go. by rewrite <- !app_assoc.
  - intros H0 -> H1. unfold sseLogStreamWriter_Write, Encode, w_Write; eval_go.
    rewrite H0; eval_go. rewrite H1; eval_go. by rewrite <- !app_assoc.
  - intros H0 -> H1 H2. unfold sseLogStreamWriter_Write, Encode, w_Write; eval_go.
    rewrite H0; eval_go. rewrite H1; eval_go. rewrite H2; eval_go.
    by rewrite <- !app_assoc.
Qed.

Lemma sse_Write_errors_witness :
  sseLogStreamWriter_Write (R' := unit) (failingAt 0) "stderr" "again"
    {| trace := []; deferred := []; writes := 2;
       encoder := Some (errorString "broken pipe") |} =
  (Next (0, Some (errorString "broken pipe")),
   {| trace := [ELock; EWrite "data: " None; EUnlock];
      deferred := []; writes := 3;
      encoder := Some (errorString "broken pipe") |}).
Proof.
  apply (proj1 (proj2 (sse_Write_errors (failingAt 0) "stderr" "again" [] [] 2
                         (Some (errorString "broken pipe"))
                         (errorString "broken pipe"))));
    reflexivity.
Defined.

(** One call of [Write], whatever the sink answers: it falls through,
    adds only lock and write events and leaves the deferred calls of its
    caller alone. *)
Lemma sse_Write_shape {R'} rt s p f :
  ∃ r ws n enc,
    sseLogStreamWriter_Write (R' := R') rt s p f =
      (Next r, {| trace := trace f ++ ws; deferred := deferred f; writes := n;
                  encoder := enc |}) ∧
    Forall (λ e, isSinkEvent e = true) ws.
Proof.
  destruct f as [tr df n enc].
  unfold sseLogStreamWriter_Write, Encode, w_Write; eval_go.
  destruct (WriteResult rt n) as [e1|]; eval_go.
  { eexists _, [_; _; _], _, _. rewrite <- !app_assoc. split; [done|each_event]. }
  destruct enc as [e0|]; eval_go.
  { eexists _, [_; _; _], _, _. rewrite <- !app_assoc. split; [done|each_event]. }
  destruct (WriteResult rt (S n)) as [e2|]; eval_go.
  { eexists _, [_; _; _; _], _, _. rewrite <- !app_assoc. split; [done|each_event]. }
  eexists _, [_; _; _; _; _], _, _. rewrite <- !app_assoc. split; [done|each_event].
Qed.

Lemma demultiplex_Copy_shape {R} rt chunks : ∀ f,
  ∃ r evs n enc,
    demultiplex_Copy (R := R) (sseLogStreamWriter_Write rt "stdout")
                     (sseLogStreamWriter_Write rt "stderr") chunks f =
      (Next r, {| trace := trace f ++ evs; deferred := deferred f; writes := n;
                  encoder := enc |}) ∧
    Forall (λ e, isSinkEvent e = true) evs.
Proof.
  induction chunks as [|[s p] chunks IH]; intros f.
  - exists None, [], (writes f), (encoder f). rewrite app_nil_r. by destruct f.
  - cbn [demultiplex_Copy]. unfold mbind, go_bind.
    destruct (sse_Write_shape (R' := R) rt (fd_name s) p f)
      as (r & ws & n & enc & Hw & Hws).
    assert (match s with
            | Stdout => sseLogStreamWriter_Write rt "stdout" p
            | Stderr => sseLogStreamWriter_Write rt "stderr" p
            end f = sseLogStreamWriter_Write (R' := R) rt (fd_name s) p f) as ->
      by by destruct s.
    rewrite Hw. destruct r as [k [err|]]; cbn [snd].
    + by exists (Some err), ws, n, enc.
    + destruct (IH {| trace := trace f ++ ws; deferred := deferred f; writes := n;
                      encoder := enc |})
        as (r' & evs & n' & enc' & -> & Hevs).
      exists r', (ws ++ evs), n', enc'. cbn [trace deferred]. rewrite app_assoc.
      split; [done|]. by apply Forall_app.
Qed.

Lemma w_Write_eq {R} rt p f :
  w_Write (R := R) rt p f =
  (Next (match WriteResult rt (writes f) with Some _ => 0 | None => String.length p end,
         WriteResult rt (writes f)),
   {| trace := trace f ++ [EWrite p (WriteResult rt (writes f))];
      deferred := deferred f; writes := S (writes f); encoder := encoder f |}).
Proof. reflexivity. Qed.

Lemma io_Copy_shape {R} rt chunks : ∀ f,
  ∃ r evs n,
    io_Copy (R := R) (w_Write rt) chunks f =
      (Next r, {| trace := trace f ++ evs; deferred := deferred f; writes := n;
                  encoder := encoder f |}) ∧
    Forall (λ e, isSinkEvent e = true) evs.
Proof.
  induction chunks as [|p chunks IH]; intros f.
  - exists None, [], (writes f). rewrite app_nil_r. by destruct f.
  - cbn [io_Copy]. unfold mbind, go_bind. rewrite w_Write_eq.
    destruct (WriteResult rt (writes f)) as [err|]; cbn [snd].
    + exists (Some err), [EWrite p (Some err)], (S (writes f)).
      split; [done|each_event].
    + destruct (IH {| trace := trace f ++ [EWrite p None]; deferred := deferred f;
                      writes := S (writes f); encoder := encoder f |})
        as (r' & evs & n' & -> & Hevs).
      exists r', (EWrite p None :: evs), n'. cbn [trace deferred].
      rewrite <- app_assoc. split; [done|]. by apply List.Forall_cons.
Qed.

(** The job log after a successful attach, in either representation and
    whatever the response writer answers. *)
Lemma jobLog_shape rt req params cluster stream wait :
  Attach cluster (logAttachReq req params) false = inr (stream, wait) →
  ∃ evs,
    run (jobLog rt req params cluster) =
      EAttach (logAttachReq req params) false :: evs ++ [EClose AttachConn] ∧
    Forall (λ e, isResponseEvent e = true) evs.
Proof.
  intros Hatt. unfold jobLog; eval_go. rewrite Hatt; eval_go.
  destruct (strings.Contains (Accept req) "text/event-stream"); eval_go.
  - destruct (demultiplex_Copy_shape (R := unit) rt (frames stream)
                {| trace := [EAttach (logAttachReq req params) false;
                             EHeaderSet "Content-Type" "text/event-stream; charset=utf-8"];
                   deferred := [EClose AttachConn]; writes := 0; encoder := None |})
      as (r & evs & n & enc & -> & Hevs).
    rewrite w_Write_eq; eval_go.
    exists (EHeaderSet "Content-Type" "text/event-stream; charset=utf-8"
            :: evs ++ [EWrite eof_record (WriteResult rt n)]).
    split; [reflexivity|].
    apply List.Forall_cons; [done|]. apply Forall_app. split; [|each_event].
    eapply Forall_impl; [exact Hevs|]. by intros [].
  - destruct (io_Copy_shape (R := unit) rt (raw stream)
                {| trace := [EAttach (logAttachReq req params) false];
                   deferred := [EClose AttachConn]; writes := 0; encoder := None |})
      as (r & evs & n & -> & Hevs).
    eval_go. exists evs. split; [done|].
    eapply Forall_impl; [exact Hevs|]. by intros [].
Qed.

Lemma occurrences_app P t1 t2 :
  occurrences P (t1 ++ t2) = occurrences P t1 + occurrences P t2.
Proof. unfold occurrences. by rewrite List.filter_app, length_app. Qed.

Lemma occurrences_none (P Q : event → bool) t :
  (∀ e, Q e = true → P e = false) →
  Forall (λ e, Q e = true) t → occurrences P t = 0.
Proof.
  intros HPQ. unfold occurrences. induction 1 as [|e t He _ IH]; [done|].
  simpl. by rewrite (HPQ e He).
Qed.

Lemma jobLog_attach_failed_lemma rt req params cluster err :
  Attach cluster (logAttachReq req params) false = inl err →
  run (jobLog rt req params cluster) =
    [EAttach (logAttachReq req params) false; EError err].
Proof. intros Hatt. unfold jobLog; eval_go. rewrite Hatt; eval_go. done. Qed.

(** X7.  When the attach of a job-log request fails, the handler reports
    the attach error as it is: nothing is written to the response and no
    stream is closed. *)
Theorem jobLog_attach_failed rt req params cluster err :
  Attach cluster (logAttachReq req params) false = inl err →
  run (jobLog rt req params cluster) =
    [EAttach (logAttachReq req params) false; EError err].
Proof. apply jobLog_attach_failed_lemma. Qed.

Lemma jobLog_attach_failed_witness :
  run (jobLog okRuntime sseReq {[ "jobs_id" := "job7" ]} deafHost) =
  [EAttach (logAttachReq sseReq {[ "jobs_id" := "job7" ]}) false;
   EError (errorString "no such job")].
Proof. by apply jobLog_attach_failed. Defined.

(** X8.  After a successful attach the job log closes the stream exactly
    once, as its last event, in either representation and whatever the
    response writer answers; in between it only sets a header and writes,
    and it never reports an error, even when writes fail. *)
Theorem jobLog_closes_stream_last rt req params cluster stream wait :
  Attach cluster (logAttachReq req params) false = inr (stream, wait) →
  let t := run (jobLog rt req params cluster) in
  (∃ evs, t = EAttach (logAttachReq req params) false :: evs ++ [EClose AttachConn] ∧
          Forall (λ e, isResponseEvent e = true) evs) ∧
  occurrences (isCloseOf AttachConn) t = 1 ∧
  (∀ err, EError err ∉ t).
Proof.
  intros Hatt t. subst t.
  destruct (jobLog_shape rt req params cluster stream wait Hatt) as (evs & -> & Hevs).
  split; [by exists evs|]. split.
  - change (EAttach (logAttachReq req params) false :: evs ++ [EClose AttachConn])
      with ([EAttach (logAttachReq req params) false] ++ evs ++ [EClose AttachConn]).
    rewrite !occurrences_app.
    rewrite (occurrences_none _ isResponseEvent evs); [done| |done].
    by intros [].
  - intros err Hin. apply elem_of_cons in Hin as [Hin|Hin]; [done|].
    apply elem_of_app in Hin as [Hin|Hin].
    + rewrite Forall_forall in Hevs. by apply Hevs in Hin.
    + apply elem_of_cons in Hin as [Hin|Hin]; [done|]. by apply elem_of_nil in Hin.
Qed.

Lemma jobLog_closes_stream_last_witness :
  occurrences (isCloseOf AttachConn)
    (run (jobLog (failingAt 1) sseReq {[ "jobs_id" := "job7" ]} okHost)) = 1.
Proof.
  exact (proj1 (proj2 (jobLog_closes_stream_last (failingAt 1) sseReq
                         {[ "jobs_id" := "job7" ]} okHost okStream None eq_refl))).
Defined.

(** X9.  In the event-stream representation the terminal record is
    attempted exactly once, after everything the frames wrote and right
    before the stream is closed, also when a frame could not be written:
    the outcome of the copy is ignored. *)
Theorem jobLog_eof_always_attempted rt req params cluster stream wait :
  strings.Contains (Accept req) "text/event-stream" = true →
  Attach cluster (logAttachReq req params) false = inr (stream, wait) →
  ∃ evs res,
    run (jobLog rt req params cluster) =
      [EAttach (logAttachReq req params) false;
       EHeaderSet "Content-Type" "text/event-stream; charset=utf-8"] ++
      evs ++ [EWrite eof_record res; EClose AttachConn] ∧
    Forall (λ e, isSinkEvent e = true) evs.
Proof.
  intros Hsse Hatt. unfold jobLog; eval_go. rewrite Hatt; eval_go.
  rewrite Hsse; eval_go.
  destruct (demultiplex_Copy_shape (R := unit) rt (frames stream)
              {| trace := [EAttach (logAttachReq req params) false;
                           EHeaderSet "Content-Type" "text/event-stream; charset=utf-8"];
                 deferred := [EClose AttachConn]; writes := 0; encoder := None |})
    as (r & evs & n & enc & -> & Hevs).
  rewrite w_Write_eq; eval_go.
  exists evs, (WriteResult rt n). split; [by rewrite <- !app_assoc|done].
Qed.

Lemma jobLog_eof_always_attempted_witness :
  ∃ evs res,
    run (jobLog (failingAt 1) sseReq {[ "jobs_id" := "job7" ]} okHost) =
      [EAttach (logAttachReq sseReq {[ "jobs_id" := "job7" ]}) false;
       EHeaderSet "Content-Type" "text/event-stream; charset=utf-8"] ++
      evs ++ [EWrite eof_record res; EClose AttachConn] ∧
    Forall (λ e, isSinkEvent e = true) evs.
Proof.
  exact (jobLog_eof_always_attempted (failingAt 1) sseReq {[ "jobs_id" := "job7" ]}
           okHost okStream None eq_refl eq_refl).
Defined.

Example job_log_broken_pipe :
  run (jobLog (failingAt 1) sseReq {[ "jobs_id" := "job7" ]} okHost) =
  [EAttach (logAttachReq sseReq {[ "jobs_id" := "job7" ]}) false;
   EHeaderSet "Content-Type" "text/event-stream; charset=utf-8";
   ELock; EWrite "data: " None;
   EWrite (sampleMarshal "stdout" "hello" +:+ LF) (Some (errorString "broken pipe"));
   EUnlock;
   EWrite eof_record None;
   EClose AttachConn].
Proof. reflexivity. Qed.

(** ** The raw job log *)

Lemma accepts_S rt n k : accepts rt n (S k) → WriteResult rt n = None ∧ accepts rt (S n) k.
Proof.
  intros H. split.
  - specialize (H 0 ltac:(lia)). by rewrite Nat.add_0_r in H.
  - intros i Hi. specialize (H (S i) ltac:(lia)).
    by replace (S n + i) with (n + S i) by lia.
Qed.

Lemma io_Copy_accepted {R} rt chunks : ∀ f,
  accepts rt (writes f) (length chunks) →
  io_Copy (R := R) (w_Write rt) chunks f =
  (Next None,
   {| trace := trace f ++ map written chunks; deferred := deferred f;
      writes := length chunks + writes f; encoder := encoder f |}).
Proof.
  induction chunks as [|p chunks IH]; intros f Hacc.
  - cbn. unfold mret, go_ret. rewrite app_nil_r. by destruct f.
  - cbn [io_Copy length]. unfold mbind, go_bind. rewrite w_Write_eq.
    apply accepts_S in Hacc as [-> Hacc]. cbn [snd].
    rewrite IH by exact Hacc. cbn [trace deferred writes map].
    rewrite <- app_assoc. do 2 f_equal. lia.
Qed.

Lemma io_Copy_fails {R} rt pre p post err : ∀ f,
  accepts rt (writes f) (length pre) →
  WriteResult rt (writes f + length pre) = Some err →
  io_Copy (R := R) (w_Write rt) (pre ++ p :: post) f =
  (Next (Some err),
   {| trace := trace f ++ map written pre ++ [EWrite p (Some err)];
      deferred := deferred f;
      writes := S (length pre + writes f); encoder := encoder f |}).
Proof.
  induction pre as [|q pre IH]; intros f Hacc Herr.
  - cbn [app io_Copy length] in *. unfold mbind, go_bind. rewrite w_Write_eq.
    rewrite Nat.add_0_r in Herr. rewrite Herr. reflexivity.
  - cbn [app io_Copy length] in *. unfold mbind, go_bind. rewrite w_Write_eq.
    apply accepts_S in Hacc as [-> Hacc]. cbn [snd].
    rewrite IH; cbn [trace deferred writes map].
    + rewrite <- app_assoc. do 2 f_equal. lia.
    + exact Hacc.
    + by replace (S (writes f) + length pre) with (writes f + S (length pre)) by lia.
Qed.

Lemma body_written chunks : body (map written chunks) = concat_bytes chunks.
Proof.
  induction chunks as [|p chunks IH]; [done|].
  change (p +:+ body (map written chunks) = p +:+ concat_bytes chunks).
  by rewrite IH.
Qed.

(** X10.  Without the event-stream representation the job log is a plain
    copy: on a response writer that accepts them, the chunks read from the
    attach stream are written one by one as they are, with no header, no
    frame and no terminal record, so the body is exactly the bytes of the
    stream. *)
Theorem jobLog_raw_copy rt req params cluster stream wait :
  strings.Contains (Accept req) "text/event-stream" = false →
  Attach cluster (logAttachReq req params) false = inr (stream, wait) →
  accepts rt 0 (length (raw stream)) →
  let t := run (jobLog rt req params cluster) in
  t = EAttach (logAttachReq req params) false ::
      map written (raw stream) ++ [EClose AttachConn] ∧
  body t = concat_bytes (raw stream).
Proof.
  intros Hraw Hatt Hacc t.
  assert (t = EAttach (logAttachReq req params) false ::
              map written (raw stream) ++ [EClose AttachConn]) as ->.
  { subst t. unfold jobLog; eval_go. rewrite Hatt; eval_go. rewrite Hraw; eval_go.
    rewrite io_Copy_accepted by exact Hacc. eval_go. done. }
  split; [done|].
  change (body (map written (raw stream) ++ [EClose AttachConn]) =
          concat_bytes (raw stream)).
  rewrite body_app, body_written. apply append_nil_r.
Qed.

Lemma jobLog_raw_copy_witness :
  body (run (jobLog okRuntime rawReq {[ "jobs_id" := "job7" ]} twoChunkHost)) = "abcd".
Proof.
  refine (proj2 (jobLog_raw_copy okRuntime rawReq {[ "jobs_id" := "job7" ]}
                   twoChunkHost twoChunks None eq_refl eq_refl _)).
  intros i _. reflexivity.
Defined.

(** X11.  The raw copy stops at the first write the response writer
    refuses: the chunks before it are written, the refused chunk is the
    last write, the chunks after it are never written, and the stream is
    still closed. *)
Theorem jobLog_raw_copy_stops rt req params cluster stream wait pre p post err :
  strings.Contains (Accept req) "text/event-stream" = false →
  Attach cluster (logAttachReq req params) false = inr (stream, wait) →
  raw stream = pre ++ p :: post →
  accepts rt 0 (length pre) →
  WriteResult rt (length pre) = Some err →
  run (jobLog rt req params cluster) =
    EAttach (logAttachReq req params) false ::
    map written pre ++ [EWrite p (Some err); EClose AttachConn].
Proof.
  intros Hraw Hatt Hsplit Hacc Herr.
  unfold jobLog; eval_go. rewrite Hatt; eval_go. rewrite Hraw; eval_go.
  rewrite Hsplit, (io_Copy_fails rt pre p post err) by done. eval_go.
  by rewrite <- app_assoc.
Qed.

Lemma jobLog_raw_copy_stops_witness :
  run (jobLog (failingAt 1) rawReq {[ "jobs_id" := "job7" ]} twoChunkHost) =
  EAttach (logAttachReq rawReq {[ "jobs_id" := "job7" ]}) false ::
  map written ["ab"] ++ [EWrite "cd" (Some (errorString "broken pipe")); EClose AttachConn].
Proof.
  refine (jobLog_raw_copy_stops (failingAt 1) rawReq {[ "jobs_id" := "job7" ]}
            twoChunkHost twoChunks None ["ab"] "cd" [] (errorString "broken pipe")
            eq_refl eq_refl eq_refl _ eq_refl).
  intros [|i] Hi; [reflexivity|simpl in Hi; lia].
Defined.

(** X12.  The only attach a job log makes is a read-only one for the job
    named in the parameters: it does not wait for the job, it never asks
    for stdin, always asks for stdout, stderr and the stored logs, and
    asks for the live stream exactly when the request has a non-empty
    [tail] value. *)
Theorem jobLog_attach_read_only rt req params cluster areq w :
  EAttach areq w ∈ run (jobLog rt req params cluster) →
  w = false ∧
  host.JobID areq = get params "jobs_id" ∧
  (host.AttachFlagStdin ∉ host.Flags areq) ∧
  (host.AttachFlagStdout ∈ host.Flags areq) ∧
  (host.AttachFlagStderr ∈ host.Flags areq) ∧
  (host.AttachFlagLogs ∈ host.Flags areq) ∧
  ((host.AttachFlagStream ∈ host.Flags areq) ↔ tail req ≠ "").
Proof.
  intros Hin.
  assert (areq = logAttachReq req params ∧ w = false) as [-> ->].
  { destruct (Attach cluster (logAttachReq req params) false) as [err|[stream wait]] eqn:Hatt.
    - rewrite (jobLog_attach_failed_lemma _ _ _ _ _ Hatt) in Hin.
      apply elem_of_cons in Hin as [[= -> ->]|Hin]; [done|].
      apply elem_of_cons in Hin as [Hin|Hin]; [done|]. by apply elem_of_nil in Hin.
    - destruct (jobLog_shape rt req params cluster stream wait Hatt) as (evs & Ht & Hevs).
      rewrite Ht in Hin.
      apply elem_of_cons in Hin as [[= -> ->]|Hin]; [done|].
      apply elem_of_app in Hin as [Hin|Hin].
      + rewrite Forall_forall in Hevs. by apply Hevs in Hin.
      + apply elem_of_cons in Hin as [Hin|Hin]; [done|]. by apply elem_of_nil in Hin. }
  unfold logAttachReq; cbn [host.JobID host.Flags].
  destruct (String.eqb_spec (tail req) "") as [Ht|Ht]; cbn [negb];
    rewrite ?elem_of_app, !elem_of_cons, ?elem_of_nil;
    intuition (try discriminate; try congruence).
Qed.

Lemma jobLog_attach_read_only_witness :
  (host.AttachFlagStream ∈ host.Flags (logAttachReq rawReq {[ "jobs_id" := "job7" ]})) ↔
  (tail rawReq ≠ "").
Proof.
  refine (proj2 (proj2 (proj2 (proj2 (proj2 (proj2
    (jobLog_attach_read_only okRuntime rawReq {[ "jobs_id" := "job7" ]} okHost
       (logAttachReq rawReq {[ "jobs_id" := "job7" ]}) false _))))))).
  apply list_elem_of_In. vm_compute. tauto.
Defined.

(** ** Dispatch without a session *)

Ltac path_facts :=
  try match goal with H : (pickHost _ =? "") = true |- _ => apply String.eqb_eq in H end;
  try match goal with H : (pickHost _ =? "") = false |- _ => apply String.eqb_neq in H end;
  simplify_eq.

(** X13.  A request without the attach marker whose release, artifact and
    image resolve, on a cluster with a host: the job is submitted to the
    selected host and the answer is 200 with the composite ID of host and
    job, the release ID of the request and the command of the request. *)
Theorem runJob_plain_dispatch
    rt app newJob releases artifacts cl req release image hosts :
  strings.Contains (Accept req) "application/vnd.flynn.attach" = false →
  resolves rt releases artifacts newJob release image →
  ListHosts cl = inr hosts →
  pickHost hosts ≠ "" →
  AddJobs cl (newAddJobsReq (pickHost hosts)
                (newHostJob rt app newJob release image false)) = None →
  run (runJob rt app newJob releases artifacts cl req) =
    [EReleasesGet (ct.NewReleaseID newJob);
     EArtifactsGet (ct.ArtifactID release);
     EListHosts;
     EAddJobs (newAddJobsReq (pickHost hosts)
                 (newHostJob rt app newJob release image false));
     EJSON 200 (OneJob (runSummary rt newJob (pickHost hosts)))].
Proof.
  intros Hplain (Hr & artifact & Ha & Hi) Hhosts0 Hpick0 Hadd0.
  runJob_paths rt app newJob releases artifacts cl req; path_facts; try congruence.
  replace image' with image by congruence. done.
Qed.

Lemma runJob_plain_dispatch_witness :
  run (runJob okRuntime appA lsJob okReleases okArtifacts okCluster plainReq) =
  [EReleasesGet "rel1"; EArtifactsGet "art"; EListHosts;
   EAddJobs (newAddJobsReq "h1" (newHostJob okRuntime appA lsJob rel1 "docker://img" false));
   EJSON 200 (OneJob {| ct.ID := "h1-job7"; ct.Type_ := ""; ct.ReleaseID := "rel1";
                        ct.Cmd := ["ls"] |})].
Proof.
  refine (runJob_plain_dispatch okRuntime appA lsJob okReleases okArtifacts okCluster
            plainReq rel1 "docker://img" [("h1", h1)] eq_refl _ eq_refl _ eq_refl).
  - split; [reflexivity|]. eexists. split; reflexivity.
  - discriminate.
Defined.

(** X14.  A request without the attach marker never dials a host, never
    attaches, never switches protocols and has nothing to close, whatever
    the repositories and the cluster answer. *)
Theorem runJob_plain_never_dials rt app newJob releases artifacts cl req :
  strings.Contains (Accept req) "application/vnd.flynn.attach" = false →
  Forall (λ e, interactiveOnly e = false)
         (run (runJob rt app newJob releases artifacts cl req)).
Proof.
  intros Hplain.
  runJob_paths rt app newJob releases artifacts cl req; try congruence; each_event.
Qed.

Lemma runJob_plain_never_dials_witness :
  Forall (λ e, interactiveOnly e = false)
    (run (runJob okRuntime appA lsJob okReleases okArtifacts rejectingCluster plainReq)).
Proof. by apply runJob_plain_never_dials. Defined.

(** X15.  The composite ID that [runJob] answers leads back to the job:
    when the selected host's ID holds no ['-'] and the generated job ID is
    not empty, [parseJobID] splits the answered ID into that host and that
    job, so that killing it dials the host the job was sent to and stops
    the job that was submitted. *)
Theorem runJob_id_round_trip rt newJob cl hosts client :
  pickHost hosts ≠ "" →
  strings.has dash (pickHost hosts) = false →
  RandomJobID rt ≠ "" →
  DialHost cl (pickHost hosts) = inr client →
  let id := ct.ID (runSummary rt newJob (pickHost hosts)) in
  parseJobID {[ "jobs_id" := id ]} = (pickHost hosts, RandomJobID rt) ∧
  run (connectHostMiddleware {[ "jobs_id" := id ]} cl killJob) =
    [EDialHost (pickHost hosts); EStopJob (RandomJobID rt)] ++
    match StopJob client (RandomJobID rt) with
    | Some err => [EError err]
    | None => []
    end ++ [EClientClose (pickHost hosts)].
Proof.
  intros Hh Hno Hj Hdial id.
  assert (names {[ "jobs_id" := id ]} (pickHost hosts) (RandomJobID rt)) as Hn.
  { repeat split; done. }
  split; [by apply names_parse|].
  enter_middleware Hn. rewrite Hdial; eval_go.
  unfold killJob; eval_go. rewrite get_insert.
  destruct (StopJob client (RandomJobID rt)); eval_go; done.
Qed.

Lemma runJob_id_round_trip_witness :
  parseJobID {[ "jobs_id" := ct.ID (runSummary okRuntime lsJob "h1") ]} = ("h1", "job7") ∧
  run (connectHostMiddleware {[ "jobs_id" := ct.ID (runSummary okRuntime lsJob "h1") ]}
         okCluster killJob) =
    [EDialHost "h1"; EStopJob "job7"; EClientClose "h1"].
Proof.
  refine (runJob_id_round_trip okRuntime lsJob okCluster [("h1", h1)] okHost
            _ eq_refl _ eq_refl); discriminate.
Defined.

(** X16.  When the selected host's ID holds a ['-'], the composite ID that
    [runJob] answers does not lead back to that host: [parseJobID] cuts it
    at the first ['-'], inside the host ID. *)
Theorem runJob_id_dashed_host rt newJob hosts :
  pickHost hosts ≠ "" →
  strings.has dash (pickHost hosts) = true →
  fst (parseJobID {[ "jobs_id" := ct.ID (runSummary rt newJob (pickHost hosts)) ]})
  ≠ pickHost hosts.
Proof.
  intros Hh Hdash Heq.
  destruct (parseJobID {[ "jobs_id" := ct.ID (runSummary rt newJob (pickHost hosts)) ]})
    as [a b] eqn:Hp.
  simpl in Heq. subst a.
  destruct (parseJobID_recompose_lemma _ _ _ Hp Hh) as (_ & Hno & _). congruence.
Qed.

Lemma runJob_id_dashed_host_witness :
  fst (parseJobID {[ "jobs_id" := ct.ID (runSummary okRuntime lsJob "rack-1") ]}) ≠ "rack-1".
Proof.
  refine (runJob_id_dashed_host okRuntime lsJob
            [("rack-1", {| host.HostID := "rack-1"; host.Jobs := [] |})] _ eq_refl).
  discriminate.
Defined.

Example dashed_host_id :
  parseJobID {[ "jobs_id" := ct.ID (runSummary okRuntime lsJob "rack-1") ]}
  = ("rack", "1-job7").
Proof. reflexivity. Qed.

(** ** What an interactive dispatch opens, it closes *)

Lemma occurrences_cons P e t :
  occurrences P (e :: t) = (if P e then 1 else 0) + occurrences P t.
Proof. unfold occurrences. simpl. by destruct (P e). Qed.

Lemma session_events s evs p :
  schedule s session_start = (evs, p) → Forall (λ e, isSessionEvent e = true) evs.
Proof.
  intros Hs. destruct (session_runs _ _ _ Hs) as (d1 & d2 & Hp1 & Hp2 & Hil & _).
  eapply interleave_Forall; [done|..]; by eapply prefix_cp_Forall.
Qed.

Lemma session_closes_nothing P s evs p :
  (∀ e, isSessionEvent e = true → P e = false) →
  schedule s session_start = (evs, p) → occurrences P evs = 0.
Proof.
  intros HP Hs. eapply occurrences_none; [exact HP|]. by eapply session_events.
Qed.

(** The answers that select the path agree with the ones assumed. *)
Ltac same_path :=
  path_facts;
  repeat match goal with
  | H1 : ?f ?x = inr ?a, H2 : ?f ?x = inr ?b |- _ =>
      assert (b = a) as -> by congruence; clear H2
  | H1 : ?f ?x ?y = inr ?a, H2 : ?f ?x ?y = inr ?b |- _ =>
      assert (b = a) as -> by congruence; clear H2
  end.

Ltac count_events Hsched :=
  rewrite ?occurrences_cons, ?occurrences_app, ?occurrences_cons;
  try (erewrite session_closes_nothing; [|by intros []|exact Hsched]);
  reflexivity.

(** X17.  An interactive dispatch that is not left waiting in its session
    closes exactly what it opened, once: the host dial if and only if the
    dial succeeded, the attach channel if and only if the attach succeeded,
    and the caller's transport if and only if it was hijacked, on every
    path through the handler, the failures and the panic included. *)
Theorem runJob_closes_what_it_opened
    rt app newJob releases artifacts cl req release image hosts :
  interactive req →
  resolves rt releases artifacts newJob release image →
  ListHosts cl = inr hosts →
  pickHost hosts ≠ "" →
  finishes rt →
  occurrences isClientClose (run (runJob rt app newJob releases artifacts cl req)) =
    match DialHost cl (pickHost hosts) with inr _ => 1 | inl _ => 0 end ∧
  occurrences (isCloseOf AttachConn) (run (runJob rt app newJob releases artifacts cl req)) =
    match DialHost cl (pickHost hosts) with
    | inr client =>
        match Attach client (newAttachReq (RandomJobID rt) newJob) true with
        | inr _ => 1
        | inl _ => 0
        end
    | inl _ => 0
    end ∧
  occurrences (isCloseOf Transport) (run (runJob rt app newJob releases artifacts cl req)) =
    match DialHost cl (pickHost hosts) with
    | inr client =>
        match Attach client (newAttachReq (RandomJobID rt) newJob) true with
        | inr (_, None) =>
            match AddJobs cl (newAddJobsReq (pickHost hosts)
                                (newHostJob rt app newJob release image true)),
                  HijackResult rt with
            | None, None => 1
            | _, _ => 0
            end
        | _ => 0
        end
    | inl _ => 0
    end.
Proof.
  intros Hint (Hr & artifact & Ha & Hi) Hhosts0 Hpick0 Hfin.
  unfold interactive in Hint. unfold finishes in Hfin.
  runJob_paths rt app newJob releases artifacts cl req; same_path; try congruence;
    try (simpl in Hfin; congruence);
    rewrite ?Hdial, ?Hatt, ?Hadd, ?Hhijack;
    try destruct wait';
    (repeat split; first [reflexivity | count_events Hsched]).
Qed.

Lemma runJob_closes_what_it_opened_witness :
  occurrences isClientClose
    (run (runJob noHijack appA lsJob okReleases okArtifacts okCluster attachReq)) = 1 ∧
  occurrences (isCloseOf AttachConn)
    (run (runJob noHijack appA lsJob okReleases okArtifacts okCluster attachReq)) = 1 ∧
  occurrences (isCloseOf Transport)
    (run (runJob noHijack appA lsJob okReleases okArtifacts okCluster attachReq)) = 0.
Proof.
  refine (runJob_closes_what_it_opened noHijack appA lsJob okReleases okArtifacts
            okCluster attachReq rel1 "docker://img" [("h1", h1)]
            eq_refl _ eq_refl _ eq_refl).
  - split; [reflexivity|]. eexists. split; reflexivity.
  - discriminate.
Defined.

(** ** A failed submission, and what every exit closes *)

Ltac count_opened cl :=
  rewrite ?occurrences_cons, ?occurrences_app, ?occurrences_cons;
  try match goal with
  | Hsched : schedule _ session_start = _ |- _ =>
      rewrite ?(session_closes_nothing isClientClose _ _ _
                  ltac:(by intros []) Hsched),
              ?(session_closes_nothing (isOpenedDial cl) _ _ _
                  ltac:(by intros []) Hsched),
              ?(session_closes_nothing (isCloseOf AttachConn) _ _ _
                  ltac:(by intros []) Hsched),
              ?(session_closes_nothing (isOpenedAttach cl) _ _ _
                  ltac:(by intros []) Hsched)
  end;
  cbn [isOpenedDial isOpenedAttach isClientClose isCloseOf];
  unfold selectedHost;
  repeat match goal with
  | H : _ = inr _ |- _ => rewrite H
  | H : _ = inl _ |- _ => rewrite H
  end;
  first [reflexivity | unfold occurrences; simpl; lia].

(** C5, as amended.  When [AddJobs] fails after the attach session of an
    interactive dispatch was opened, the handler reports the error
    annotated "schedule failed" and then, before it returns, closes the
    attach channel and the host dial, each exactly once: the two closes are
    deferred calls and run after the error is handed to the response
    helper.  And on every path on which the handler leaves, by a return or
    by a panic, for every request: the host dial is closed as many times
    as a dial was opened, and the attach channel as many times as an
    attach session was opened. *)
Theorem runJob_schedule_failed rt app newJob releases artifacts cl req :
  let t := run (runJob rt app newJob releases artifacts cl req) in
  (∀ release image hosts client sw err,
     interactive req →
     resolves rt releases artifacts newJob release image →
     ListHosts cl = inr hosts →
     pickHost hosts ≠ "" →
     DialHost cl (pickHost hosts) = inr client →
     Attach client (newAttachReq (RandomJobID rt) newJob) true = inr sw →
     AddJobs cl (newAddJobsReq (pickHost hosts)
                   (newHostJob rt app newJob release image true)) = Some err →
     t = [EReleasesGet (ct.NewReleaseID newJob);
          EArtifactsGet (ct.ArtifactID release);
          EListHosts;
          EDialHost (pickHost hosts);
          EAttach (newAttachReq (RandomJobID rt) newJob) true;
          EAddJobs (newAddJobsReq (pickHost hosts)
                      (newHostJob rt app newJob release image true));
          EError (errorString ("schedule failed: " +:+ Error rt err));
          EClose AttachConn;
          EClientClose (pickHost hosts)] ∧
     occurrences (isCloseOf AttachConn) t = 1 ∧
     occurrences isClientClose t = 1) ∧
  (exits (runJob rt app newJob releases artifacts cl req) →
   occurrences isClientClose t = occurrences (isOpenedDial cl) t ∧
   occurrences (isCloseOf AttachConn) t = occurrences (isOpenedAttach cl) t ∧
   (occurrences (isOpenedDial cl) t ≤ 1)%nat ∧
   (occurrences (isOpenedAttach cl) t ≤ 1)%nat).
Proof.
  intros t. split.
  - intros release image hosts client sw err
      Hint (Hr & artifact & Ha & Hi) Hhosts0 Hpick0 Hdial0 Hatt0 Hadd0.
    unfold interactive in Hint.
    assert (t = [EReleasesGet (ct.NewReleaseID newJob);
         EArtifactsGet (ct.ArtifactID release);
         EListHosts;
         EDialHost (pickHost hosts);
         EAttach (newAttachReq (RandomJobID rt) newJob) true;
         EAddJobs (newAddJobsReq (pickHost hosts)
                     (newHostJob rt app newJob release image true));
         EError (errorString ("schedule failed: " +:+ Error rt err));
         EClose AttachConn;
         EClientClose (pickHost hosts)]) as ->; [|done].
    subst t.
    runJob_paths rt app newJob releases artifacts cl req;
      try (apply String.eqb_eq in Hpick);
      try (apply String.eqb_neq in Hpick);
      simplify_eq; congruence.
  - subst t. unfold exits.
    runJob_paths rt app newJob releases artifacts cl req; intros Hex; try done;
      (split; [count_opened cl|]); (split; [count_opened cl|]);
      (split; [count_opened cl|count_opened cl]).
Qed.

Lemma runJob_schedule_failed_witness :
  let t := run (runJob okRuntime appA lsJob okReleases okArtifacts rejectingCluster
                  attachReq) in
  (occurrences (isCloseOf AttachConn) t = 1 ∧ occurrences isClientClose t = 1) ∧
  occurrences isClientClose t = occurrences (isOpenedDial rejectingCluster) t ∧
  occurrences (isCloseOf AttachConn) t = occurrences (isOpenedAttach rejectingCluster) t ∧
  (occurrences (isOpenedDial rejectingCluster) t ≤ 1)%nat ∧
  (occurrences (isOpenedAttach rejectingCluster) t ≤ 1)%nat.
Proof.
  split.
  - refine (proj2 (proj1 (runJob_schedule_failed okRuntime appA lsJob okReleases
              okArtifacts rejectingCluster attachReq)
              {| ct.RelID := "rel1"; ct.ArtifactID := "art"; ct.RelEnv := ∅ |}
              "docker://img" [("h1", h1)] okHost (okStream, None) (errorString "boom")
              eq_refl _ eq_refl _ eq_refl eq_refl eq_refl)).
    + split; [reflexivity|]. eexists. split; reflexivity.
    + discriminate.
  - refine (proj2 (runJob_schedule_failed okRuntime appA lsJob okReleases
              okArtifacts rejectingCluster attachReq) _).
    discriminate.
Defined.

(** C5 as stated fails on the order: at the moment the error of a failed
    submission is reported, neither the attach channel nor the host dial
    has been closed; both closes follow the report. *)
Lemma runJob_closes_follow_error :
  ∃ pre post,
    run (runJob okRuntime appA lsJob okReleases okArtifacts rejectingCluster attachReq)
    = pre ++ EError (errorString "schedule failed: boom") :: post ∧
    occurrences (isCloseOf AttachConn) pre = 0 ∧
    occurrences isClientClose pre = 0 ∧
    post = [EClose AttachConn; EClientClose "h1"].
Proof.
  exists [EReleasesGet "rel1"; EArtifactsGet "art"; EListHosts; EDialHost "h1";
          EAttach (newAttachReq "job7" lsJob) true;
          EAddJobs (newAddJobsReq "h1"
            (newHostJob okRuntime appA lsJob
               {| ct.RelID := "rel1"; ct.ArtifactID := "art"; ct.RelEnv := ∅ |}
               "docker://img" true))],
         [EClose AttachConn; EClientClose "h1"].
  repeat split; reflexivity.
Qed.

(** ** The failures of an interactive dispatch, phase by phase *)

Lemma annotated_text rt phase err :
  errorString (phase +:+ ": " +:+ Error rt err) = annotated rt phase err.
Proof. reflexivity. Qed.

Ltac close_path :=
  same_path;
  first [congruence | unfold selected; norm_app; congruence | reflexivity].

(** X18.  When the selected host cannot be dialed, an interactive
    dispatch reports the error annotated "lorne connect failed" and stops:
    no attach, no submission, and nothing to close. *)
Theorem runJob_dial_failed
    rt app newJob releases artifacts cl req release image hosts err :
  interactive req →
  resolves rt releases artifacts newJob release image →
  ListHosts cl = inr hosts →
  pickHost hosts ≠ "" →
  DialHost cl (pickHost hosts) = inl err →
  run (runJob rt app newJob releases artifacts cl req) =
    selected newJob release ++
    [EDialHost (pickHost hosts);
     EError (errorString ("lorne connect failed: " +:+ Error rt err))].
Proof.
  intros Hint (Hr & artifact & Ha & Hi) Hhosts0 Hpick0 Hdial0.
  unfold interactive in Hint.
  runJob_paths rt app newJob releases artifacts cl req; close_path.
Qed.

Lemma runJob_dial_failed_witness :
  run (runJob okRuntime appA lsJob okReleases okArtifacts unreachableCluster attachReq) =
  [EReleasesGet "rel1"; EArtifactsGet "art"; EListHosts; EDialHost "h1";
   EError (errorString "lorne connect failed: connection refused")].
Proof.
  refine (runJob_dial_failed okRuntime appA lsJob okReleases okArtifacts
            unreachableCluster attachReq rel1 "docker://img" [("h1", h1)]
            (errorString "connection refused") eq_refl _ eq_refl _ eq_refl).
  - split; [reflexivity|]. eexists. split; reflexivity.
  - discriminate.
Defined.

(** X19.  When the attach request fails on the dialed host, an
    interactive dispatch reports the error annotated "attach failed",
    submits nothing, and closes the dial once; there is no attach channel
    to close. *)
Theorem runJob_attach_failed
    rt app newJob releases artifacts cl req release image hosts client err :
  interactive req →
  resolves rt releases artifacts newJob release image →
  ListHosts cl = inr hosts →
  pickHost hosts ≠ "" →
  DialHost cl (pickHost hosts) = inr client →
  Attach client (newAttachReq (RandomJobID rt) newJob) true = inl err →
  run (runJob rt app newJob releases artifacts cl req) =
    selected newJob release ++
    [EDialHost (pickHost hosts);
     EAttach (newAttachReq (RandomJobID rt) newJob) true;
     EError (errorString ("attach failed: " +:+ Error rt err));
     EClientClose (pickHost hosts)].
Proof.
  intros Hint (Hr & artifact & Ha & Hi) Hhosts0 Hpick0 Hdial0 Hatt0.
  unfold interactive in Hint.
  runJob_paths rt app newJob releases artifacts cl req; close_path.
Qed.

Lemma runJob_attach_failed_witness :
  run (runJob okRuntime appA lsJob okReleases okArtifacts (cluster_of (inr deafHost))
         attachReq) =
  [EReleasesGet "rel1"; EArtifactsGet "art"; EListHosts; EDialHost "h1";
   EAttach (newAttachReq "job7" lsJob) true;
   EError (errorString "attach failed: no such job");
   EClientClose "h1"].
Proof.
  refine (runJob_attach_failed okRuntime appA lsJob okReleases okArtifacts
            (cluster_of (inr deafHost)) attachReq rel1 "docker://img" [("h1", h1)]
            deafHost (errorString "no such job") eq_refl _ eq_refl _ eq_refl eq_refl).
  - split; [reflexivity|]. eexists. split; reflexivity.
  - discriminate.
Defined.

(** X20.  When the wait for the attach fails, the job has already been
    submitted: an interactive dispatch reports the error annotated
    "attach wait failed", writes no status line and hijacks nothing,
    closes the attach channel and then the dial, and does nothing to
    withdraw the submitted job. *)
Theorem runJob_attach_wait_failed
    rt app newJob releases artifacts cl req release image hosts client stream err :
  interactive req →
  resolves rt releases artifacts newJob release image →
  ListHosts cl = inr hosts →
  pickHost hosts ≠ "" →
  DialHost cl (pickHost hosts) = inr client →
  Attach client (newAttachReq (RandomJobID rt) newJob) true = inr (stream, Some err) →
  AddJobs cl (newAddJobsReq (pickHost hosts)
                (newHostJob rt app newJob release image true)) = None →
  run (runJob rt app newJob releases artifacts cl req) =
    selected newJob release ++
    [EDialHost (pickHost hosts);
     EAttach (newAttachReq (RandomJobID rt) newJob) true;
     EAddJobs (newAddJobsReq (pickHost hosts)
                 (newHostJob rt app newJob release image true));
     EAttachWait;
     EError (errorString ("attach wait failed: " +:+ Error rt err));
     EClose AttachConn;
     EClientClose (pickHost hosts)].
Proof.
  intros Hint (Hr & artifact & Ha & Hi) Hhosts0 Hpick0 Hdial0 Hatt0 Hadd0.
  unfold interactive in Hint.
  runJob_paths rt app newJob releases artifacts cl req; close_path.
Qed.

Lemma runJob_attach_wait_failed_witness :
  run (runJob okRuntime appA lsJob okReleases okArtifacts (cluster_of (inr waitFailsHost))
         attachReq) =
  [EReleasesGet "rel1"; EArtifactsGet "art"; EListHosts; EDialHost "h1";
   EAttach (newAttachReq "job7" lsJob) true;
   EAddJobs (newAddJobsReq "h1" okJob);
   EAttachWait;
   EError (errorString "attach wait failed: timeout");
   EClose AttachConn;
   EClientClose "h1"].
Proof.
  refine (runJob_attach_wait_failed okRuntime appA lsJob okReleases okArtifacts
            (cluster_of (inr waitFailsHost)) attachReq rel1 "docker://img" [("h1", h1)]
            waitFailsHost okStream (errorString "timeout")
            eq_refl _ eq_refl _ eq_refl eq_refl eq_refl).
  - split; [reflexivity|]. eexists. split; reflexivity.
  - discriminate.
Defined.

(** X21.  When the response writer cannot be hijacked, the status line of
    the protocol switch has already been written: the handler panics with
    the hijack error, no copy loop starts and no transport is closed, and
    the deferred closes of the attach channel and of the dial still run. *)
Theorem runJob_hijack_failed
    rt app newJob releases artifacts cl req release image hosts client stream err :
  interactive req →
  resolves rt releases artifacts newJob release image →
  ListHosts cl = inr hosts →
  pickHost hosts ≠ "" →
  DialHost cl (pickHost hosts) = inr client →
  Attach client (newAttachReq (RandomJobID rt) newJob) true = inr (stream, None) →
  AddJobs cl (newAddJobsReq (pickHost hosts)
                (newHostJob rt app newJob release image true)) = None →
  HijackResult rt = Some err →
  run (runJob rt app newJob releases artifacts cl req) =
    selected newJob release ++
    [EDialHost (pickHost hosts);
     EAttach (newAttachReq (RandomJobID rt) newJob) true;
     EAddJobs (newAddJobsReq (pickHost hosts)
                 (newHostJob rt app newJob release image true));
     EAttachWait;
     EHeaderSet "Content-Type" "application/vnd.flynn.attach";
     EHeaderSet "Content-Length" "0";
     EWriteHeader 101;
     EHijack;
     EPanic err;
     EClose AttachConn;
     EClientClose (pickHost hosts)].
Proof.
  intros Hint (Hr & artifact & Ha & Hi) Hhosts0 Hpick0 Hdial0 Hatt0 Hadd0 Hhj0.
  unfold interactive in Hint.
  runJob_paths rt app newJob releases artifacts cl req; close_path.
Qed.

Lemma runJob_hijack_failed_witness :
  run (runJob noHijack appA lsJob okReleases okArtifacts okCluster attachReq) =
  [EReleasesGet "rel1"; EArtifactsGet "art"; EListHosts; EDialHost "h1";
   EAttach (newAttachReq "job7" lsJob) true;
   EAddJobs (newAddJobsReq "h1" okJob);
   EAttachWait;
   EHeaderSet "Content-Type" "application/vnd.flynn.attach";
   EHeaderSet "Content-Length" "0";
   EWriteHeader 101;
   EHijack;
   EPanic (errorString "not a hijacker");
   EClose AttachConn;
   EClientClose "h1"].
Proof.
  refine (runJob_hijack_failed noHijack appA lsJob okReleases okArtifacts okCluster
            attachReq rel1 "docker://img" [("h1", h1)] okHost okStream
            (errorString "not a hijacker")
            eq_refl _ eq_refl _ eq_refl eq_refl eq_refl eq_refl).
  - split; [reflexivity|]. eexists. split; reflexivity.
  - discriminate.
Defined.

(** ** The host directory *)

(** X22.  An error of the host directory is reported as it is, by the
    dispatcher (after the release, artifact and image have resolved, and
    for either kind of request) and by the listing, and ends the request:
    nothing is submitted and no list is answered. *)
Theorem ListHosts_failed rt app newJob releases artifacts cl req err :
  ListHosts cl = inl err →
  (∀ release image,
     resolves rt releases artifacts newJob release image →
     run (runJob rt app newJob releases artifacts cl req) =
       selected newJob release ++ [EError err]) ∧
  run (jobList app cl) = [EListHosts; EError err].
Proof.
  intros Hfail. split.
  - intros release image (Hr & artifact & Ha & Hi).
    runJob_paths rt app newJob releases artifacts cl req; close_path.
  - unfold jobList; eval_go. rewrite Hfail; eval_go. done.
Qed.

Lemma ListHosts_failed_witness :
  run (jobList appA blindCluster) = [EListHosts; EError (errorString "discoverd down")].
Proof.
  exact (proj2 (ListHosts_failed okRuntime appA lsJob okReleases okArtifacts
                  blindCluster plainReq (errorString "discoverd down") eq_refl)).
Defined.

(** X23.  The dispatcher reports "no hosts found" exactly when the first
    host ID its [range] loop meets is the empty string: that is, when the
    host map is empty, and also when the first host visited has the empty
    ID, whatever other hosts the map holds. *)
Theorem runJob_no_hosts_iff rt app newJob releases artifacts cl req release image hosts :
  resolves rt releases artifacts newJob release image →
  ListHosts cl = inr hosts →
  (run (runJob rt app newJob releases artifacts cl req) =
     selected newJob release ++ [EError (errorString "no hosts found")]
   ↔ pickHost hosts = "") ∧
  (pickHost hosts = "" ↔ hosts = [] ∨ ∃ h rest, hosts = ("", h) :: rest).
Proof.
  intros (Hr & artifact & Ha & Hi) Hhosts0. split.
  - split.
    + runJob_paths rt app newJob releases artifacts cl req; same_path;
        try congruence; try done; unfold selected; norm_app; discriminate.
    + intros Hp.
      runJob_paths rt app newJob releases artifacts cl req; close_path.
  - destruct hosts as [|[k h] rest]; simpl.
    + split; [by left|done].
    + split.
      * intros ->. right. by exists h, rest.
      * intros [?|(h' & rest' & [= -> _ _])]; done.
Qed.

Lemma runJob_no_hosts_iff_witness :
  run (runJob okRuntime appA lsJob okReleases okArtifacts namelessCluster plainReq) =
  [EReleasesGet "rel1"; EArtifactsGet "art"; EListHosts;
   EError (errorString "no hosts found")].
Proof.
  refine (proj2 (proj1 (runJob_no_hosts_iff okRuntime appA lsJob okReleases okArtifacts
            namelessCluster plainReq rel1 "docker://img" _ _ eq_refl)) eq_refl).
  split; [reflexivity|]. eexists. split; reflexivity.
Defined.

(** ** What is submitted *)

Lemma pickHost_in hosts :
  pickHost hosts ≠ "" → ∃ h, (pickHost hosts, h) ∈ hosts.
Proof.
  destruct hosts as [|[k h] rest]; simpl; [done|].
  intros _. exists h. apply elem_of_cons. by left.
Qed.

(** Every submission of [runJob]: to the selected, named host, of the job
    record built for the request. *)
Lemma runJob_submits rt app newJob releases artifacts cl req r :
  EAddJobs r ∈ run (runJob rt app newJob releases artifacts cl req) →
  ∃ hosts release image,
    resolves rt releases artifacts newJob release image ∧
    ListHosts cl = inr hosts ∧ pickHost hosts ≠ "" ∧
    r = newAddJobsReq (pickHost hosts)
          (newHostJob rt app newJob release image
             (strings.Contains (Accept req) "application/vnd.flynn.attach")).
Proof.
  runJob_paths rt app newJob releases artifacts cl req; intros Hin;
    repeat match type of Hin with
    | _ ∈ [] => by apply elem_of_nil in Hin
    | _ ∈ _ :: _ => apply elem_of_cons in Hin as [Hin|Hin]; [try discriminate Hin|]
    | _ ∈ _ ++ _ => apply elem_of_app in Hin as [Hin|Hin]
    end;
    try (apply session_submits_nothing in Hsched;
         rewrite Forall_forall in Hsched; by apply Hsched in Hin);
    injection Hin as ->; apply String.eqb_neq in Hpick;
    exists hosts', release', image'; unfold resolves; eauto 10.
Qed.

Lemma runJob_submits_once rt app newJob releases artifacts cl req :
  (occurrences isAddJobs (run (runJob rt app newJob releases artifacts cl req)) ≤ 1)%nat.
Proof.
  runJob_paths rt app newJob releases artifacts cl req;
    rewrite ?occurrences_cons, ?occurrences_app, ?occurrences_cons;
    try (erewrite session_closes_nothing; [|by intros []|exact Hsched]);
    simpl; unfold occurrences; simpl; lia.
Qed.

(** X24.  Whatever happens, [runJob] calls [AddJobs] at most once, and
    only with a request for one host, which is a non-empty key of the host
    map it has just listed, and for one job, the record built for this
    request. *)
Theorem runJob_single_submission rt app newJob releases artifacts cl req :
  (occurrences isAddJobs (run (runJob rt app newJob releases artifacts cl req)) ≤ 1)%nat ∧
  ∀ r, EAddJobs r ∈ run (runJob rt app newJob releases artifacts cl req) →
       ∃ hosts h release image,
         ListHosts cl = inr hosts ∧
         (pickHost hosts, h) ∈ hosts ∧
         pickHost hosts ≠ "" ∧
         host.HostJobs r =
           {[ pickHost hosts :=
                [newHostJob rt app newJob release image
                   (strings.Contains (Accept req) "application/vnd.flynn.attach")] ]}.
Proof.
  split; [apply runJob_submits_once|].
  intros r Hin.
  destruct (runJob_submits _ _ _ _ _ _ _ _ Hin)
    as (hosts & release & image & _ & Hhosts & Hpick & ->).
  destruct (pickHost_in hosts Hpick) as [h Hh].
  by exists hosts, h, release, image.
Qed.

(** X25.  Every job that [runJob] submits carries the generated job ID
    and a configuration, which holds the command of the request and the
    resolved image, always has stdout and stderr attached, has stdin
    attached, open and closed after one session exactly when the request
    is interactive, and has a terminal exactly when the request asks for
    one. *)
Theorem runJob_job_config rt app newJob releases artifacts cl req r h jobs job :
  EAddJobs r ∈ run (runJob rt app newJob releases artifacts cl req) →
  host.HostJobs r !! h = Some jobs →
  job ∈ jobs →
  let attach := strings.Contains (Accept req) "application/vnd.flynn.attach" in
  host.ID job = RandomJobID rt ∧
  ∃ config,
    host.Config job = Some config ∧
    docker.Cmd config = ct.NewCmd newJob ∧
    (∃ release image,
       resolves rt releases artifacts newJob release image ∧
       docker.Image config = image ∧
       docker.Env config = FormatEnv rt (ct.RelEnv release) (ct.NewEnv newJob)) ∧
    docker.AttachStdout config = true ∧
    docker.AttachStderr config = true ∧
    docker.AttachStdin config = attach ∧
    docker.StdinOnce config = attach ∧
    docker.OpenStdin config = attach ∧
    docker.Tty config = ct.TTY newJob.
Proof.
  intros Hin Hjobs Hjob attach.
  destruct (runJob_submits _ _ _ _ _ _ _ _ Hin)
    as (hosts & release & image & Hres & Hhosts & Hpick & ->).
  unfold newAddJobsReq in Hjobs; cbn [host.HostJobs] in Hjobs.
  apply lookup_singleton_Some in Hjobs as [<- <-].
  apply list_elem_of_singleton in Hjob as ->.
  fold attach. unfold newHostJob; cbn.
  split; [done|]. eexists. split; [reflexivity|]. cbn.
  repeat split; try done.
  - by exists release, image.
  - by destruct attach.
  - by destruct attach.
  - by destruct attach.
  - by destruct (ct.TTY newJob).
Qed.

Lemma runJob_job_config_witness :
  host.ID okJob = "job7" ∧
  ∃ config,
    host.Config okJob = Some config ∧
    docker.Cmd config = ["ls"] ∧
    (∃ release image,
       resolves okRuntime okReleases okArtifacts lsJob release image ∧
       docker.Image config = image ∧
       docker.Env config =
         FormatEnv okRuntime (ct.RelEnv release) (ct.NewEnv lsJob)) ∧
    docker.AttachStdout config = true ∧
    docker.AttachStderr config = true ∧
    docker.AttachStdin config = true ∧
    docker.StdinOnce config = true ∧
    docker.OpenStdin config = true ∧
    docker.Tty config = false.
Proof.
  refine (runJob_job_config okRuntime appA lsJob okReleases okArtifacts okCluster
            attachReq (newAddJobsReq "h1" okJob) "h1" [okJob] okJob _ _ _).
  - apply list_elem_of_In. vm_compute. tauto.
  - reflexivity.
  - apply elem_of_cons. by left.
Defined.

(** ** The session cannot get stuck *)

Lemma schedule_app s1 s2 p :
  schedule (s1 ++ s2) p =
  (fst (schedule s1 p) ++ fst (schedule s2 (snd (schedule s1 p))),
   snd (schedule s2 (snd (schedule s1 p)))).
Proof.
  revert p; induction s1 as [|t s1 IH]; intros p; simpl.
  - by destruct (schedule s2 p).
  - destruct (pool_step t p) as [e1 p1]. rewrite IH.
    destruct (schedule s1 p1) as [e2 p2]. simpl.
    by rewrite app_assoc.
Qed.

(** From every state a session can reach, the turns of [finish] bring all
    three goroutines to their end. *)
Lemma session_reachable_finishes s evs p :
  schedule s session_start = (evs, p) →
  let p' := snd (schedule finish p) in
  g1 p' = [] ∧ g2 p' = [] ∧ main p' = [] ∧ done p' = 0.
Proof.
  intros Hs.
  destruct (schedule_interleave _ _ _ _ Hs eq_refl)
    as (d1 & d2 & dm & H1 & H2 & Hm & _ & Hc).
  destruct p as [a b c d]. simpl in H1, H2, Hm, Hc.
  rewrite !sends_app, !recvs_app in Hc. unfold cp in H1, H2.
  destruct d1 as [|? [|? [|? [|? ?]]]]; simplify_eq/=;
    destruct d2 as [|? [|? [|? [|? ?]]]]; simplify_eq/=;
    destruct dm as [|? [|? [|? ?]]]; simplify_eq/=;
    unfold sends, recvs in Hc; simpl in Hc;
    destruct d as [|[|[|d]]]; try lia; done.
Qed.

(** X26.  A session cannot get stuck: after any schedule whatsoever,
    giving each copy loop and the handler the turns they still need ends
    all three.  No send on [done] ever blocks, both receives succeed, and
    the events of the session are then the two complete loops, each in its
    own order. *)
Theorem session_never_deadlocks s evs p :
  schedule (s ++ finish) session_start = (evs, p) →
  g1 p = [] ∧ g2 p = [] ∧ main p = [] ∧ done p = 0 ∧
  interleave [ECopied Transport AttachConn; ECloseWrite Transport; EDone]
             [ECopied AttachConn Transport; ECloseWrite AttachConn; EDone] evs.
Proof.
  intros Hs.
  assert (g1 p = [] ∧ g2 p = [] ∧ main p = [] ∧ done p = 0) as (Hg1 & Hg2 & Hmn & Hd).
  { rewrite schedule_app in Hs. injection Hs as _ <-.
    destruct (schedule s session_start) as [e1 p1] eqn:Hs1.
    exact (session_reachable_finishes _ _ _ Hs1). }
  repeat split; try done.
  destruct (session_runs _ _ _ Hs) as (d1 & d2 & _ & _ & Hil & Hend).
  destruct (Hend Hmn) as [-> ->]. exact Hil.
Qed.

Lemma session_never_deadlocks_witness :
  interleave [ECopied Transport AttachConn; ECloseWrite Transport; EDone]
             [ECopied AttachConn Transport; ECloseWrite AttachConn; EDone]
             (fst (schedule ([G2; Main; G1; G2; Main] ++ finish) session_start)).
Proof.
  refine (proj2 (proj2 (proj2 (proj2
    (session_never_deadlocks [G2; Main; G1; G2; Main] _ _ _))))).
  vm_compute. reflexivity.
Defined.

(** ** More on the listing *)

Lemma listing_app app hs1 hs2 :
  listing app (hs1 ++ hs2) = listing app hs1 ++ listing app hs2.
Proof. unfold listing. apply flat_map_app. Qed.

Lemma listing_length app hosts : length (listing app hosts) = belonging app hosts.
Proof.
  induction hosts as [|kh hosts IH]; [done|].
  unfold listing in *. simpl. by rewrite length_app, length_map, IH.
Qed.

Lemma configured_app app hs1 hs2 :
  configured app (hs1 ++ hs2) = configured app hs1 && configured app hs2.
Proof. unfold configured. apply forallb_app. Qed.

(** X27.  The loop over a host map made of two parts is the loop over
    the first part followed by the loop over the second: it returns when
    both do, that is when every untyped job of the application in either
    part has a configuration, and its list is then the first list followed
    by the second, with one summary for each job of the application, no
    more and no fewer; an empty host map gives the empty list. *)
Theorem jobList_loop_app app hs1 hs2 :
  jobList_loop app (hs1 ++ hs2) =
    (jobs1 ← jobList_loop app hs1; jobs2 ← jobList_loop app hs2; Some (jobs1 ++ jobs2)) ∧
  (is_Some (jobList_loop app (hs1 ++ hs2)) ↔
   configured app hs1 = true ∧ configured app hs2 = true) ∧
  (∀ jobs, jobList_loop app (hs1 ++ hs2) = Some jobs →
           length jobs = belonging app hs1 + belonging app hs2) ∧
  jobList_loop app [] = Some [].
Proof.
  rewrite !jobList_loop_listing, configured_app.
  split; [|split; [|split; [|done]]].
  - destruct (configured app hs1), (configured app hs2); simpl; by rewrite ?listing_app.
  - destruct (configured app hs1), (configured app hs2); simpl;
      (split; [intros [? ?]; try done | intros [? ?]; try done; by eexists]).
  - destruct (configured app hs1), (configured app hs2); simpl;
      intros jobs Hjobs; simplify_eq;
      by rewrite listing_app, length_app, !listing_length.
Qed.

Lemma jobList_loop_app_witness :
  length [ {| ct.ID := "h1-j1"; ct.Type_ := "web"; ct.ReleaseID := "rel1";
              ct.Cmd := [] |} ] =
  belonging appA [("h1", {| host.HostID := "h1"; host.Jobs := [webJob] |})] +
  belonging appA [("h2", {| host.HostID := "h2"; host.Jobs := [otherJob] |})].
Proof.
  exact (proj1 (proj2 (proj2
           (jobList_loop_app appA
              [("h1", {| host.HostID := "h1"; host.Jobs := [webJob] |})]
              [("h2", {| host.HostID := "h2"; host.Jobs := [otherJob] |})]))) _ eq_refl).
Defined.

(** X28.  A job that carries no [flynn-controller.app] annotation reads
    as a job of the application whose ID is the empty string: in a host
    map where no job is annotated, an application with a non-empty ID
    lists nothing, whether or not the jobs have a configuration, and an
    application with the empty ID lists every job when each job without a
    type has a configuration, and panics otherwise. *)
Theorem jobList_unannotated app hosts :
  (∀ k h j, (k, h) ∈ hosts → j ∈ host.Jobs h →
            host.Attributes j !! "flynn-controller.app" = None) →
  (ct.AppID app ≠ "" → jobList_loop app hosts = Some []) ∧
  (ct.AppID app = "" →
   jobList_loop app hosts =
     if configured app hosts
     then Some (flat_map (λ kh, map (summary (snd kh)) (host.Jobs (snd kh))) hosts)
     else None).
Proof.
  intros Hbare. rewrite jobList_loop_listing. unfold listing.
  assert (∀ k h j, (k, h) ∈ hosts → j ∈ host.Jobs h →
          belongs app j = String.eqb (ct.AppID app) "") as Hb.
  { intros k h j Hkh Hj. unfold belongs, get. rewrite (Hbare k h j Hkh Hj). cbn [default].
    apply String.eqb_sym. }
  assert (∀ k h, (k, h) ∈ hosts →
          List.filter (belongs app) (host.Jobs h) =
          if String.eqb (ct.AppID app) "" then host.Jobs h else []) as Hfilter.
  { intros k h Hkh. specialize (Hb k h).
    induction (host.Jobs h) as [|j js IH]; [by destruct (String.eqb _ _)|].
    simpl. rewrite (Hb j) by (done || apply elem_of_cons; by left).
    rewrite IH by (intros j' ? Hj'; apply Hb; [done|apply elem_of_cons; by right]).
    by destruct (String.eqb (ct.AppID app) ""). }
  split; intros Happ.
  - apply String.eqb_neq in Happ.
    assert (configured app hosts = true) as ->.
    { unfold configured. apply forallb_forall. intros [k h] Hkh%list_elem_of_In.
      apply forallb_forall. intros j Hj%list_elem_of_In.
      unfold hasConfig. rewrite (Hb k h j Hkh Hj), Happ. by destruct (host.Config j). }
    f_equal.
    clear Hbare Hb. induction hosts as [|[k h] hosts IH]; [done|]. simpl.
    rewrite (Hfilter k h) by (apply elem_of_cons; by left). rewrite Happ. simpl.
    apply IH. intros k' h' Hin. apply (Hfilter k' h'), elem_of_cons. by right.
  - apply String.eqb_eq in Happ.
    destruct (configured app hosts); [|done]. f_equal.
    clear Hbare Hb. induction hosts as [|[k h] hosts IH]; [done|]. simpl.
    rewrite (Hfilter k h) by (apply elem_of_cons; by left). rewrite Happ.
    f_equal. apply IH. intros k' h' Hin. apply (Hfilter k' h'), elem_of_cons. by right.
Qed.

Lemma jobList_unannotated_witness : jobList_loop appA bareHosts = Some [].
Proof.
  refine (proj1 (jobList_unannotated appA bareHosts _) _); [|discriminate].
  intros k h j Hkh Hj.
  apply list_elem_of_singleton in Hkh as [= -> ->].
  by apply list_elem_of_singleton in Hj as ->.
Defined.

(** X29.  Every summary that the listing answers names a job that can be
    reached again: it is the summary of a job of a host of the map, a
    summary never has both a type and a command, and when the host's ID
    is not empty and holds no ['-'] and the job's ID is not empty,
    [parseJobID] splits the summary's ID into exactly that host ID and
    that job ID. *)
Theorem jobList_ids_parse app hosts jobs s :
  jobList_loop app hosts = Some jobs →
  s ∈ jobs →
  ∃ k h j,
    (k, h) ∈ hosts ∧ j ∈ host.Jobs h ∧
    ct.ID s = host.HostID h +:+ "-" +:+ host.ID j ∧
    (ct.Type_ s = "" ∨ ct.Cmd s = []) ∧
    (host.HostID h ≠ "" → strings.has dash (host.HostID h) = false → host.ID j ≠ "" →
     parseJobID {[ "jobs_id" := ct.ID s ]} = (host.HostID h, host.ID j)).
Proof.
  rewrite jobList_loop_listing. destruct (configured app hosts); [|done].
  intros [= <-] Hs.
  apply elem_of_listing in Hs as (k & h & j & Hkh & Hj & _ & ->).
  exists k, h, j. repeat split; try done.
  - unfold summary, untyped; cbn [ct.Type_ ct.Cmd].
    destruct (String.eqb_spec (get (host.Attributes j) "flynn-controller.type") "");
      [by left|by right].
  - intros Hh Hno Hjid. apply names_parse. repeat split; done.
Qed.

Lemma jobList_ids_parse_witness :
  ∃ k h j,
    (k, h) ∈ [("h1", {| host.HostID := "h1"; host.Jobs := [webJob] |})] ∧
    j ∈ host.Jobs h ∧
    ct.ID (summary {| host.HostID := "h1"; host.Jobs := [webJob] |} webJob) =
      host.HostID h +:+ "-" +:+ host.ID j ∧
    (ct.Type_ (summary {| host.HostID := "h1"; host.Jobs := [webJob] |} webJob) = "" ∨
     ct.Cmd (summary {| host.HostID := "h1"; host.Jobs := [webJob] |} webJob) = []) ∧
    (host.HostID h ≠ "" → strings.has dash (host.HostID h) = false → host.ID j ≠ "" →
     parseJobID {[ "jobs_id" :=
         ct.ID (summary {| host.HostID := "h1"; host.Jobs := [webJob] |} webJob) ]}
     = (host.HostID h, host.ID j)).
Proof.
  apply (jobList_ids_parse appA
           [("h1", {| host.HostID := "h1"; host.Jobs := [webJob] |})]
           [summary {| host.HostID := "h1"; host.Jobs := [webJob] |} webJob]);
    [reflexivity|].
  apply list_elem_of_In. vm_compute. tauto.
Defined.
